(** * KoHash: Zobrist hashing of board states (zobrist-hash-class.js)

    A shallow embedding of the [KoHash] class and of its helper
    [initNumbers], and of the drawing and hashing functions of its BigInt
    variant [ZobristHash], followed by the properties of the key table, of
    the XOR fold and of the registry of fingerprints.

    JavaScript numbers that the program handles are integers here ([Z]);
    the bitwise operator [^] is written out with its conversion of both
    operands to signed 32-bit integers.  The ambient random source is an
    explicit stream of draws, read through a cursor. *)

From Stdlib Require Import ZArith Lia.
From stdpp Require Import base numbers option list gmap sets.

Local Open Scope Z_scope.

(** ** JavaScript values and operators used by the program *)

(** What a call can end with: a returned value or a thrown exception.
    [TypeError] is raised by the runtime ([reduce] of an empty array with no
    initial value, reading a property of [undefined], [^] between a BigInt
    and a number), [SyntaxError] by [BigInt] on a string that is no integer
    literal; [DuplicateError] is the [Error] thrown by [add], carrying the
    hash of its message. *)
Inductive exn : Type :=
  | TypeError
  | SyntaxError
  | DuplicateError (hash : Z).

Inductive completion (A : Type) : Type :=
  | Normal (a : A)
  | Throw (e : exn).
Arguments Normal {A} a.
Arguments Throw {A} e.

(** [arr[i]]: [None] stands for [undefined] (index out of range). *)
Definition index {A : Type} (arr : list A) (i : Z) : option A :=
  if decide (0 ≤ i) then arr !! Z.to_nat i else None.

(** [Number.MAX_SAFE_INTEGER] *)
Definition MAX_SAFE_INTEGER : Z := 2 ^ 53 - 1.

(** ECMAScript [ToInt32] on an integral number. *)
Definition ToInt32 (x : Z) : Z :=
  let int32bit := x mod 2 ^ 32 in
  if decide (2 ^ 31 ≤ int32bit) then int32bit - 2 ^ 32 else int32bit.

(** [ToInt32] of an operand that may be [undefined]: [undefined] converts to
    [NaN], and [ToInt32(NaN)] is [0]. *)
Definition ToInt32_operand (v : option Z) : Z :=
  match v with
  | Some x => ToInt32 x
  | None => 0
  end.

(** [a ^ b] on numbers: both operands go through [ToInt32], the 32-bit
    patterns are XORed and the result is read back as a signed 32-bit
    integer.  [Z.lxor] works on two's complement, so on two values of the
    int32 range it is that operation. *)
Definition xor (a : Z) (b : option Z) : Z :=
  Z.lxor (ToInt32 a) (ToInt32_operand b).

(** [Array.prototype.reduce] without an initial value: the accumulator starts
    as the first element, the callback is first called at index 1, and an
    empty array raises a [TypeError]. *)
Fixpoint reduce_from {A : Type} (callback : A → A → nat → completion A)
    (acc : A) (i : nat) (arr : list A) : completion A :=
  match arr with
  | [] => Normal acc
  | val :: arr' =>
      match callback acc val i with
      | Normal acc' => reduce_from callback acc' (S i) arr'
      | Throw e => Throw e
      end
  end.

Definition reduce {A : Type} (callback : A → A → nat → completion A)
    (arr : list A) : completion A :=
  match arr with
  | [] => Throw TypeError
  | first :: arr' => reduce_from callback first 1 arr'
  end.

(** ** The random source

    [rng k] is the value of
    [Math.floor(Math.random() * Number.MAX_SAFE_INTEGER)] at the [k]-th call
    made by the program; a cursor counts the calls made so far. *)
Definition RandomSource : Type := nat → Z.

(** Every value the expression can produce. *)
Definition in_key_range (rng : RandomSource) : Prop :=
  ∀ k, 0 ≤ rng k < MAX_SAFE_INTEGER.

(** ** initNumbers *)

(** The [do { num = ... } while (numbers.has(num))] loop.  [fuel] bounds the
    number of iterations that are run; [None] means the loop is still running
    after [fuel] iterations.  On exit it gives [num] and the new cursor. *)
Fixpoint do_while (fuel : nat) (rng : RandomSource) (pos : nat)
    (numbers : gset Z) : option (Z * nat) :=
  match fuel with
  | O => None
  | S fuel' =>
      let num := rng pos in
      if decide (num ∈ numbers) then do_while fuel' rng (S pos) numbers
      else Some (num, S pos)
  end.

(** The body of [for (let val=1; val <= quantity; val++)], run [iters] times:
    draw, [numbers.add(num)], [newNumbers.push(num)].  [numbers] is the shared
    set, threaded through. *)
Fixpoint initNumbers_for (fuel : nat) (rng : RandomSource) (iters : nat)
    (pos : nat) (numbers : gset Z) (newNumbers : list Z)
    : option (list Z * gset Z * nat) :=
  match iters with
  | O => Some (newNumbers, numbers, pos)
  | S iters' =>
      match do_while fuel rng pos numbers with
      | None => None
      | Some (num, pos') =>
          initNumbers_for fuel rng iters' pos' ({[num]} ∪ numbers)
            (newNumbers ++ [num])
      end
  end.

(** [initNumbers(numbers, quantity)]: the loop runs for [val = 1 .. quantity],
    not at all when [quantity < 1]. *)
Definition initNumbers (fuel : nat) (rng : RandomSource) (pos : nat)
    (numbers : gset Z) (quantity : Z) : option (list Z * gset Z * nat) :=
  initNumbers_for fuel rng (Z.to_nat quantity) pos numbers [0].

(** ** The class KoHash *)

Record KoHash : Type := mkKoHash {
  nums : list (list Z);
  toPlay : option (list Z);   (* [None]: the property was never assigned *)
  keys : gset Z
}.

(** [for (let vertex=0; vertex < size; vertex++)
       this.nums[vertex] = initNumbers(numbers,values)]:
    each assignment writes at the current length of [this.nums]. *)
Fixpoint constructor_for (fuel : nat) (rng : RandomSource) (iters : nat)
    (values : Z) (pos : nat) (numbers : gset Z) (this_nums : list (list Z))
    : option (list (list Z) * gset Z * nat) :=
  match iters with
  | O => Some (this_nums, numbers, pos)
  | S iters' =>
      match initNumbers fuel rng pos numbers values with
      | None => None
      | Some (row, numbers', pos') =>
          constructor_for fuel rng iters' values pos' numbers'
            (this_nums ++ [row])
      end
  end.

(** [new KoHash(size, values, situational)]; [if (situational)] is taken for
    every number other than 0. *)
Definition constructor (fuel : nat) (rng : RandomSource)
    (size values situational : Z) : option KoHash :=
  match constructor_for fuel rng (Z.to_nat size) values 0%nat ∅ [] with
  | None => None
  | Some (this_nums, numbers, pos) =>
      if decide (situational = 0) then
        Some (mkKoHash this_nums None ∅)
      else
        match initNumbers fuel rng pos numbers situational with
        | None => None
        | Some (this_toPlay, _, _) =>
            Some (mkKoHash this_nums (Some this_toPlay) ∅)
        end
  end.

(** The callback [(hash,val,i) => hash ^ this.nums[i][val]]: when
    [this.nums[i]] is [undefined], reading [[val]] of it throws. *)
Definition hash_callback (this : KoHash) (hash val : Z) (i : nat)
    : completion Z :=
  match nums this !! i with
  | None => Throw TypeError
  | Some row => Normal (xor hash (index row val))
  end.

(** [hash(state, toPlay)] *)
Definition hash (this : KoHash) (state : list Z) (to_play : Z)
    : completion Z :=
  match reduce (hash_callback this) state with
  | Throw e => Throw e
  | Normal hash =>
      match toPlay this with
      | Some this_toPlay => Normal (xor hash (index this_toPlay to_play))
      | None => Normal hash
      end
  end.

(** [add(state, toPlay)]: the outcome and the object afterwards. *)
Definition add (this : KoHash) (state : list Z) (to_play : Z)
    : completion Z * KoHash :=
  match hash this state to_play with
  | Throw e => (Throw e, this)
  | Normal hash =>
      if decide (hash ∈ keys this) then (Throw (DuplicateError hash), this)
      else (Normal hash,
            mkKoHash (nums this) (toPlay this) ({[hash]} ∪ keys this))
  end.

(** [remove(key)]: [Set.prototype.delete] tells whether the key was there. *)
Definition remove (this : KoHash) (key : Z) : bool * KoHash :=
  (bool_decide (key ∈ keys this),
   mkKoHash (nums this) (toPlay this) (keys this ∖ {[key]})).

(** ** The BigInt variant: ZobristHash

    The later version of the class draws 64-bit BigInts.  Its values are
    numbers or BigInts; [^] between the two kinds throws. *)
Module ZobristHash.

Inductive value : Type :=
  | Num (z : Z)
  | Big (z : Z).

#[global] Instance value_eq_dec : EqDecision value.
Proof. solve_decision. Defined.

#[global] Instance value_countable : Countable value.
Proof.
  refine (inj_countable'
            (λ v, match v with Num z => inl z | Big z => inr z end)
            (λ s, match s with inl z => Num z | inr z => Big z end) _).
  by intros [].
Defined.

(** [a ^ b], the right operand possibly [undefined] (which converts to the
    number [NaN]): numbers are XORed as 32-bit integers, BigInts at full
    width, and mixing the two kinds is a TypeError. *)
Definition xor (a : value) (b : option value) : completion value :=
  match a, b with
  | Num x, Some (Num y) => Normal (Num (Z.lxor (ToInt32 x) (ToInt32 y)))
  | Num x, None => Normal (Num (Z.lxor (ToInt32 x) 0))
  | Big x, Some (Big y) => Normal (Big (Z.lxor x y))
  | Num _, Some (Big _) | Big _, Some (Num _) | Big _, None => Throw TypeError
  end.

(** [arr[val]]: a number or a BigInt indexes by its integer. *)
Definition index_value {A : Type} (arr : list A) (val : value) : option A :=
  match val with
  | Num z | Big z => index arr z
  end.

(** [rng k] is the value of [Math.floor(Math.random() * 2)] at the [k]-th
    call: [true] for 1. *)
Definition BitSource : Type := nat → bool.

(** [BigInt(binary)] for the digits that follow ['0b']: most significant
    digit first; with no digit the string is no literal. *)
Definition BigInt_of_binary (digits : list bool) : completion Z :=
  match digits with
  | [] => Throw SyntaxError
  | _ :: _ => Normal (fold_left (λ acc (d : bool), 2 * acc + Z.b2z d) digits 0)
  end.

(** [while (bits-- > 0) binary += ...], run [iters] times. *)
Fixpoint randomBigInt_while (iters : nat) (rng : BitSource) (pos : nat)
    (binary : list bool) : list bool * nat :=
  match iters with
  | O => (binary, pos)
  | S iters' => randomBigInt_while iters' rng (S pos) (binary ++ [rng pos])
  end.

(** [randomBigInt(bits)] and the cursor after it. *)
Definition randomBigInt (bits : Z) (rng : BitSource) (pos : nat)
    : completion Z * nat :=
  let '(binary, pos') := randomBigInt_while (Z.to_nat bits) rng pos [] in
  (BigInt_of_binary binary, pos').

(** [do { num = randomBigInt(64) } while (bigints.has(num))], with the
    number of iterations bounded by [fuel] as for [initNumbers]. *)
Fixpoint do_while (fuel : nat) (rng : BitSource) (pos : nat)
    (bigints : gset Z) : option (completion Z * nat) :=
  match fuel with
  | O => None
  | S fuel' =>
      match randomBigInt 64 rng pos with
      | (Throw e, pos') => Some (Throw e, pos')
      | (Normal num, pos') =>
          if decide (num ∈ bigints) then do_while fuel' rng pos' bigints
          else Some (Normal num, pos')
      end
  end.

Fixpoint initBigInts_for (fuel : nat) (rng : BitSource) (iters : nat)
    (pos : nat) (bigints : gset Z) (newNumbers : list value)
    : option (completion (list value) * gset Z * nat) :=
  match iters with
  | O => Some (Normal newNumbers, bigints, pos)
  | S iters' =>
      match do_while fuel rng pos bigints with
      | None => None
      | Some (Throw e, pos') => Some (Throw e, bigints, pos')
      | Some (Normal num, pos') =>
          initBigInts_for fuel rng iters' pos' ({[num]} ∪ bigints)
            (newNumbers ++ [Big num])
      end
  end.

(** [initBigInts(bigints, quantity)]: the row starts with the number 0. *)
Definition initBigInts (fuel : nat) (rng : BitSource) (pos : nat)
    (bigints : gset Z) (quantity : Z)
    : option (completion (list value) * gset Z * nat) :=
  initBigInts_for fuel rng (Z.to_nat quantity) pos bigints [Num 0].

Record ZobristHash : Type := mkZobristHash {
  nums : list (list value);
  toPlay : option (list value);
  keys : gset value   (* hashes are numbers or BigInts; 5 and 5n differ *)
}.

(** The [for] loop of the constructor, as in [KoHash]. *)
Fixpoint constructor_for (fuel : nat) (rng : BitSource) (iters : nat)
    (values : Z) (pos : nat) (bigints : gset Z) (this_nums : list (list value))
    : option (completion (list (list value)) * gset Z * nat) :=
  match iters with
  | O => Some (Normal this_nums, bigints, pos)
  | S iters' =>
      match initBigInts fuel rng pos bigints values with
      | None => None
      | Some (Throw e, bigints', pos') => Some (Throw e, bigints', pos')
      | Some (Normal row, bigints', pos') =>
          constructor_for fuel rng iters' values pos' bigints'
            (this_nums ++ [row])
      end
  end.

(** [new ZobristHash(size, values, situational)] *)
Definition constructor (fuel : nat) (rng : BitSource)
    (size values situational : Z) : option (completion ZobristHash) :=
  match constructor_for fuel rng (Z.to_nat size) values 0%nat ∅ [] with
  | None => None
  | Some (Throw e, _, _) => Some (Throw e)
  | Some (Normal this_nums, bigints, pos) =>
      if decide (situational = 0) then
        Some (Normal (mkZobristHash this_nums None ∅))
      else
        match initBigInts fuel rng pos bigints situational with
        | None => None
        | Some (Throw e, _, _) => Some (Throw e)
        | Some (Normal this_toPlay, _, _) =>
            Some (Normal (mkZobristHash this_nums (Some this_toPlay) ∅))
        end
  end.

(** The callback [(hash,val,i) => hash ^ this.nums[i][val]]. *)
Definition hash_callback (this : ZobristHash) (hash val : value) (i : nat)
    : completion value :=
  match nums this !! i with
  | None => Throw TypeError
  | Some row => xor hash (index_value row val)
  end.

(** [hash(state, toPlay)] *)
Definition hash (this : ZobristHash) (state : list value) (to_play : Z)
    : completion value :=
  match reduce (hash_callback this) state with
  | Throw e => Throw e
  | Normal hash =>
      match toPlay this with
      | Some this_toPlay => xor hash (index this_toPlay to_play)
      | None => Normal hash
      end
  end.

(** The integer that the message of the error shows for a hash. *)
Definition digits_of (v : value) : Z :=
  match v with
  | Num z | Big z => z
  end.

(** [add(state, toPlay)] *)
Definition add (this : ZobristHash) (state : list value) (to_play : Z)
    : completion value * ZobristHash :=
  match hash this state to_play with
  | Throw e => (Throw e, this)
  | Normal hash =>
      if decide (hash ∈ keys this)
      then (Throw (DuplicateError (digits_of hash)), this)
      else (Normal hash,
            mkZobristHash (nums this) (toPlay this) ({[hash]} ∪ keys this))
  end.

(** [remove(key)] *)
Definition remove (this : ZobristHash) (key : value) : bool * ZobristHash :=
  (bool_decide (key ∈ keys this),
   mkZobristHash (nums this) (toPlay this) (keys this ∖ {[key]})).

(** A row as [initBigInts(bigints, quantity)] returns it. *)
Definition row_shape (quantity : Z) (row : list value) : Prop :=
  ∃ gen, row = Num 0 :: (Big <$> gen) ∧ length gen = Z.to_nat quantity.

(** A source of bits that spells the 64-bit numbers of [l], one after the
    other, and only zeros after them. *)
Definition bits_of (l : list Z) : BitSource :=
  λ k, Z.testbit (default 0 (l !! (k / 64)%nat)) (63 - Z.of_nat (k mod 64)).

End ZobristHash.

(** ** Vocabulary of the properties *)

(** The range of a signed 32-bit integer. *)
Definition int32 (x : Z) : Prop := - 2 ^ 31 ≤ x < 2 ^ 31.

(** The keys that rows hold after their leading 0, in the order of their
    generation. *)
Definition generated (rows : list (list Z)) : list Z := concat (tail <$> rows).

(** Every generated key of an object: those of [nums], then those of
    [toPlay] when it exists. *)
Definition all_generated (this : KoHash) : list Z :=
  generated (nums this) ++ from_option tail [] (toPlay this).

(** A row as [initNumbers(numbers, values)] returns it. *)
Definition row_shape (values : Z) (row : list Z) : Prop :=
  ∃ gen, row = 0 :: gen ∧ length gen = Z.to_nat values.

(** A random source whose first draws are those of [l]; every later draw
    is [later]. *)
Definition draws (l : list Z) (later : Z) : RandomSource :=
  λ k, default later (l !! k).

(** A table of two vertices, two values and two players; it is the one the
    constructor builds from the draws 100, 200, ..., 600. *)
Definition sample_rng : RandomSource := draws [100; 200; 300; 400; 500; 600] 0.

Definition sample_table : KoHash :=
  mkKoHash [[0; 100; 200]; [0; 300; 400]] (Some [0; 500; 600]) ∅.

(** Keys that agree on their low 32 bits: 1 and 2^32 + 1 at vertex 1, whose
    third key is 2^31.  The constructor builds this table from the draws
    listed in [wide_rng]. *)
Definition wide_rng : RandomSource :=
  draws [10; 20; 30; 1; 4294967297; 2147483648] 0.

Definition wide_table : KoHash :=
  mkKoHash [[0; 10; 20; 30]; [0; 1; 4294967297; 2147483648]] None ∅.

(** Two vertices, one value, one player, the player's key being 2^32. *)
Definition player_rng : RandomSource := draws [7; 9; 4294967296] 0.

Definition player_table : KoHash :=
  mkKoHash [[0; 7]; [0; 9]] (Some [0; 4294967296]) ∅.

(** *** The fold as the specification words it

    [KeyTable[v][val]], and 0 where the table has no such entry. *)
Definition key (this : KoHash) (v : nat) (val : Z) : Z :=
  default 0 (nums this !! v ≫= λ row, index row val).

(** XOR, on integers of full width, of [KeyTable[v][state[v]]] over the
    vertices from [v] on, starting from [acc]. *)
Fixpoint spec_fold (this : KoHash) (v : nat) (state : list Z) (acc : Z) : Z :=
  match state with
  | [] => acc
  | val :: state' => spec_fold this (S v) state' (Z.lxor acc (key this v val))
  end.

(** The fingerprint of the specification: the fold over all vertices seeded
    with 0, further XORed with [ToPlayTable[to_play]] when there is one. *)
Definition spec_hash (this : KoHash) (state : list Z) (to_play : Z) : Z :=
  let fingerprint := spec_fold this 0 state 0 in
  match toPlay this with
  | Some this_toPlay => Z.lxor fingerprint (default 0 (index this_toPlay to_play))
  | None => fingerprint
  end.

(** Every number of the set is one of the first [pos] draws. *)
Definition drawn_before (rng : RandomSource) (pos : nat) (numbers : gset Z) : Prop :=
  ∀ x, x ∈ numbers → ∃ k : nat, (k < pos)%nat ∧ x = rng k.

(** A budget for the retries of a draw: no run of the [do ... while] loop
    that returns a number has drawn more than [budget] times before it. *)
Definition bounded_retry (budget : nat) : Prop :=
  ∀ (rng : RandomSource) (pos : nat) (numbers : gset Z) (fuel : nat) num pos',
    do_while fuel rng pos numbers = Some (num, pos') →
    (pos' - pos ≤ S budget)%nat.

(** ** Callers of the registry *)

(** A call to [add] or to [remove]; the caller goes on after an exception. *)
Inductive call : Type :=
  | Add (state : list Z) (to_play : Z)
  | Remove (key : Z).

Definition run_call (this : KoHash) (c : call) : KoHash :=
  match c with
  | Add state to_play => (add this state to_play).2
  | Remove key => (remove this key).2
  end.

(** The object after a sequence of calls. *)
Definition run (calls : list call) (this : KoHash) : KoHash :=
  fold_left run_call calls this.

(** The test 'should handle adding positions' of zobrist.test.js, run on the
    object that [beforeEach] built: [true] when it passes.  It fails when
    a call that must return throws, when the second [add] does not throw,
    and when the two hashes are equal. *)
Definition should_handle_adding_positions (zobrist : KoHash) : bool :=
  let arr := <[11%nat:=1]> (<[10%nat:=2]> (replicate 81 0)) in
  match add zobrist arr 0 with
  | (Throw _, _) => false
  | (Normal hash1, zobrist1) =>
      match add zobrist1 arr 0 with
      | (Normal _, _) => false
      | (Throw _, zobrist2) =>
          let arr' := <[12%nat:=2]> arr in
          match add zobrist2 arr' 0 with
          | (Throw _, _) => false
          | (Normal hash2, _) => bool_decide (hash1 ≠ hash2)
          end
      end
  end.

(** A source that never repeats a draw and whose draw for the key of value
    2 at vertex 12 is 2^32, and the object that [new KoHash(81,2,2)] builds
    from it. *)
Definition failing_test_rng : RandomSource :=
  λ k, if decide (k = 25%nat) then 2 ^ 32
       else if decide (Z.of_nat k = 2 ^ 32 - 1) then 26
       else Z.of_nat k + 1.

Definition failing_test_table : KoHash :=
  Eval vm_compute in default sample_table (constructor 1 failing_test_rng 81 2 2).

(** The table that successive draws fill row by row: [row_of rng pos n] is
    0 followed by the [n] draws from [pos] on. *)
Definition row_of (rng : RandomSource) (pos n : nat) : list Z :=
  0 :: (rng <$> seq pos n).

Definition rows_of (rng : RandomSource) (n size : nat) : list (list Z) :=
  (λ v : nat, row_of rng (v * n) n) <$> seq 0 size.

(** ** Facts about [ToInt32] and [^] *)

Lemma ToInt32_range x : int32 (ToInt32 x).
Proof.
  unfold int32, ToInt32. pose proof (Z.mod_pos_bound x (2 ^ 32)).
  case_decide; lia.
Qed.

Lemma ToInt32_mod x : ToInt32 x mod 2 ^ 32 = x mod 2 ^ 32.
Proof.
  unfold ToInt32. case_decide.
  - replace (x mod 2 ^ 32 - 2 ^ 32) with (x mod 2 ^ 32 + (-1) * 2 ^ 32) by lia.
    rewrite Z.mod_add by lia. apply Z.mod_mod. lia.
  - apply Z.mod_mod. lia.
Qed.

Lemma ToInt32_unique x y :
  int32 y → y mod 2 ^ 32 = x mod 2 ^ 32 → ToInt32 x = y.
Proof.
  unfold int32, ToInt32. intros Hy Hmod. rewrite <- Hmod.
  pose proof (Z.div_mod y (2 ^ 32)).
  pose proof (Z.mod_pos_bound y (2 ^ 32)).
  case_decide; nia.
Qed.

Lemma ToInt32_small x : int32 x → ToInt32 x = x.
Proof. intros Hx. by apply ToInt32_unique. Qed.

Lemma ToInt32_idemp x : ToInt32 (ToInt32 x) = ToInt32 x.
Proof. apply ToInt32_small, ToInt32_range. Qed.

Lemma lxor_mod_pow2 a a' b b' n :
  0 ≤ n → a mod 2 ^ n = a' mod 2 ^ n → b mod 2 ^ n = b' mod 2 ^ n →
  Z.lxor a b mod 2 ^ n = Z.lxor a' b' mod 2 ^ n.
Proof.
  intros Hn Ha Hb. apply Z.bits_inj'. intros i Hi.
  rewrite !Z.testbit_mod_pow2, !Z.lxor_spec by done.
  destruct (Z.ltb_spec i n) as [Hlt|]; [|done]. simpl.
  rewrite <- (Z.mod_pow2_bits_low a n i), <- (Z.mod_pow2_bits_low b n i) by done.
  rewrite Ha, Hb.
  by rewrite !Z.mod_pow2_bits_low.
Qed.

Lemma testbit_above a n i : 0 ≤ a < 2 ^ n → n ≤ i → Z.testbit a i = false.
Proof.
  intros Ha Hi. destruct (decide (n < 0)) as [Hn|Hn].
  - rewrite Z.pow_neg_r in Ha by done. lia.
  - rewrite <- (Z.mod_small a (2 ^ n)) by done.
    apply Z.mod_pow2_bits_high. lia.
Qed.

Lemma lxor_nonneg_below a b n :
  0 ≤ a < 2 ^ n → 0 ≤ b < 2 ^ n → 0 ≤ Z.lxor a b < 2 ^ n.
Proof.
  intros Ha Hb.
  assert (0 ≤ Z.lxor a b) as Hpos by (apply Z.lxor_nonneg; lia).
  split; [done|].
  destruct (Z.lt_ge_cases (Z.lxor a b) (2 ^ n)) as [|Hge]; [done|exfalso].
  assert (0 < Z.lxor a b) as Hlt by lia.
  pose proof (Z.bit_log2 _ Hlt) as Hbit.
  apply Z.log2_le_pow2 in Hge; [|done].
  rewrite Z.lxor_spec, (testbit_above a n), (testbit_above b n) in Hbit by done.
  done.
Qed.

Lemma lxor_int32 a b : int32 a → int32 b → int32 (Z.lxor a b).
Proof.
  unfold int32. intros Ha Hb.
  destruct (decide (0 ≤ a)) as [Ha0|Ha0], (decide (0 ≤ b)) as [Hb0|Hb0].
  - pose proof (lxor_nonneg_below a b 31). lia.
  - rewrite <- (Z.lnot_involutive (Z.lxor a b)), Z.lnot_lxor_r.
    pose proof (lxor_nonneg_below a (Z.lnot b) 31) as H.
    rewrite (Z.lnot_eq_pred_opp (Z.lxor _ _)).
    rewrite (Z.lnot_eq_pred_opp b) in *. lia.
  - rewrite <- (Z.lnot_involutive (Z.lxor a b)), Z.lnot_lxor_l.
    pose proof (lxor_nonneg_below (Z.lnot a) b 31) as H.
    rewrite (Z.lnot_eq_pred_opp (Z.lxor _ _)).
    rewrite (Z.lnot_eq_pred_opp a) in *. lia.
  - rewrite <- Z.lxor_lnot_lnot.
    pose proof (lxor_nonneg_below (Z.lnot a) (Z.lnot b) 31) as H.
    rewrite (Z.lnot_eq_pred_opp a), (Z.lnot_eq_pred_opp b) in *. lia.
Qed.

Lemma xor_int32 a b : int32 (xor a b).
Proof.
  apply lxor_int32; [apply ToInt32_range|].
  destruct b; simpl; [apply ToInt32_range|]. unfold int32. lia.
Qed.

(** [^] is the full-width XOR of the operands, cut to its low 32 bits and
    read as a signed integer. *)
Lemma ToInt32_lxor a b : ToInt32 (Z.lxor a b) = Z.lxor (ToInt32 a) (ToInt32 b).
Proof.
  apply ToInt32_unique.
  - apply lxor_int32; apply ToInt32_range.
  - apply lxor_mod_pow2; [lia| |]; apply ToInt32_mod.
Qed.

Lemma ToInt32_lxor_l a b : ToInt32 (Z.lxor (ToInt32 a) b) = ToInt32 (Z.lxor a b).
Proof. by rewrite !ToInt32_lxor, ToInt32_idemp. Qed.

Lemma xor_Some a b : xor a (Some b) = ToInt32 (Z.lxor a b).
Proof. unfold xor. simpl. by rewrite ToInt32_lxor. Qed.

Lemma xor_None a : xor a None = ToInt32 a.
Proof. unfold xor. simpl. apply Z.lxor_0_r. Qed.

Lemma xor_zero a : xor a (Some 0) = ToInt32 a.
Proof. rewrite xor_Some. by rewrite Z.lxor_0_r. Qed.

Lemma lxor_cancel_l a b c : Z.lxor a b = Z.lxor a c → b = c.
Proof.
  intros H.
  assert (∀ x, Z.lxor a (Z.lxor a x) = x) as Hinv.
  { intros x. by rewrite <- Z.lxor_assoc, Z.lxor_nilpotent, Z.lxor_0_l. }
  by rewrite <- (Hinv b), H, Hinv.
Qed.

(** ** Random sources given by a list *)

Lemma draws_in_key_range l later :
  Forall (λ x, 0 ≤ x < MAX_SAFE_INTEGER) l →
  0 ≤ later < MAX_SAFE_INTEGER →
  in_key_range (draws l later).
Proof.
  intros Hl Hlater k. unfold draws.
  destruct (l !! k) as [x|] eqn:Hx; [|done].
  by apply (Forall_lookup_1 _ _ _ _ Hl Hx).
Qed.

Ltac key_range :=
  apply draws_in_key_range; unfold MAX_SAFE_INTEGER;
  [repeat constructor; lia | lia].

(** ** The drawing loop *)

Lemma do_while_Some fuel rng pos numbers num pos' :
  do_while fuel rng pos numbers = Some (num, pos') →
  ∃ n : nat, (n < fuel)%nat ∧ pos' = S (pos + n) ∧ num = rng (pos + n)%nat ∧
    (num ∉ numbers) ∧ (∀ k : nat, (k < n)%nat → rng (pos + k)%nat ∈ numbers).
Proof.
  revert pos. induction fuel as [|fuel IH]; intros pos; simpl; [done|].
  case_decide as Hin.
  - intros (n & Hn & -> & -> & Hnot & Hbefore)%IH.
    exists (S n). rewrite Nat.add_succ_r. repeat split; [lia|done|].
    intros [|k] Hk; [by rewrite Nat.add_0_r|].
    rewrite Nat.add_succ_r. apply (Hbefore k). lia.
  - intros [= <- <-]. exists 0%nat. rewrite Nat.add_0_r.
    repeat split; [lia|done|]. intros k Hk. lia.
Qed.

Lemma do_while_first fuel rng pos numbers (n : nat) :
  (∀ k : nat, (k < n)%nat → rng (pos + k)%nat ∈ numbers) →
  rng (pos + n)%nat ∉ numbers →
  (n < fuel)%nat →
  do_while fuel rng pos numbers = Some (rng (pos + n)%nat, S (pos + n)).
Proof.
  revert pos n. induction fuel as [|fuel IH]; intros pos n Hbefore Hnot Hfuel;
    [lia|]. simpl. destruct n as [|n].
  - rewrite Nat.add_0_r in *. by rewrite decide_False.
  - rewrite decide_True by (specialize (Hbefore 0%nat); rewrite Nat.add_0_r in Hbefore;
                            apply Hbefore; lia).
    rewrite Nat.add_succ_r, <- Nat.add_succ_l. apply IH; [|by rewrite Nat.add_succ_l, <- Nat.add_succ_r|lia].
    intros k Hk. rewrite Nat.add_succ_l, <- Nat.add_succ_r. apply Hbefore. lia.
Qed.

Lemma do_while_running fuel rng pos numbers :
  (∀ k : nat, (k < fuel)%nat → rng (pos + k)%nat ∈ numbers) →
  do_while fuel rng pos numbers = None.
Proof.
  revert pos. induction fuel as [|fuel IH]; intros pos Hall; simpl; [done|].
  rewrite decide_True by (specialize (Hall 0%nat); rewrite Nat.add_0_r in Hall;
                          apply Hall; lia).
  apply IH. intros k Hk. rewrite Nat.add_succ_l, <- Nat.add_succ_r. apply Hall. lia.
Qed.

(** ** What [initNumbers] and the constructor build *)

Lemma initNumbers_for_Some fuel rng iters pos numbers newNumbers row numbers' pos' :
  initNumbers_for fuel rng iters pos numbers newNumbers = Some (row, numbers', pos') →
  ∃ gen, row = newNumbers ++ gen ∧ length gen = iters ∧ NoDup gen ∧
    (∀ x, x ∈ gen → x ∉ numbers) ∧ numbers' = list_to_set gen ∪ numbers.
Proof.
  revert pos numbers newNumbers.
  induction iters as [|iters IH]; intros pos numbers newNumbers; simpl.
  - intros [= <- <- <-]. exists []. rewrite app_nil_r.
    repeat split; [constructor|set_solver|set_solver].
  - destruct (do_while fuel rng pos numbers) as [[num pos1]|] eqn:Hloop; [|done].
    apply do_while_Some in Hloop as (n & _ & _ & _ & Hnot & _).
    intros (gen & -> & Hlen & Hnodup & Hfresh & ->)%IH.
    exists (num :: gen). rewrite <- app_assoc. simpl.
    repeat split; [by rewrite Hlen| |set_solver|set_solver].
    constructor; [|done]. intros Hin. apply Hfresh in Hin. set_solver.
Qed.

Lemma initNumbers_Some fuel rng pos numbers quantity row numbers' pos' :
  initNumbers fuel rng pos numbers quantity = Some (row, numbers', pos') →
  ∃ gen, row = 0 :: gen ∧ length gen = Z.to_nat quantity ∧ NoDup gen ∧
    (∀ x, x ∈ gen → x ∉ numbers) ∧ numbers' = list_to_set gen ∪ numbers.
Proof. intros H. by apply initNumbers_for_Some in H. Qed.

Lemma generated_app rows rows' : generated (rows ++ rows') = generated rows ++ generated rows'.
Proof. unfold generated. by rewrite fmap_app, concat_app. Qed.

Lemma constructor_for_Some fuel rng iters values pos numbers this_nums nums' numbers' pos' :
  constructor_for fuel rng iters values pos numbers this_nums = Some (nums', numbers', pos') →
  ∃ rows, nums' = this_nums ++ rows ∧ length rows = iters ∧
    Forall (row_shape values) rows ∧ NoDup (generated rows) ∧
    (∀ x, x ∈ generated rows → x ∉ numbers) ∧
    numbers' = list_to_set (generated rows) ∪ numbers.
Proof.
  revert pos numbers this_nums.
  induction iters as [|iters IH]; intros pos numbers this_nums; simpl.
  - intros [= <- <- <-]. exists []. rewrite app_nil_r.
    repeat split; [constructor|constructor|set_solver|set_solver].
  - destruct (initNumbers fuel rng pos numbers values) as [[[row numbers1] pos1]|] eqn:Hrow;
      [|done].
    apply initNumbers_Some in Hrow as (gen & -> & Hlen & Hnodup & Hfresh & ->).
    intros (rows & -> & Hrows & Hshape & Hnd & Hfr & ->)%IH.
    exists ((0 :: gen) :: rows). rewrite <- app_assoc. simpl.
    change (generated ((0 :: gen) :: rows)) with (gen ++ generated rows).
    repeat split; [by rewrite Hrows| | | |set_solver].
    + constructor; [by exists gen|done].
    + apply NoDup_app. repeat split; [done| |done].
      intros x Hx Hx'. apply Hfr in Hx'. set_solver.
    + intros x [Hx|Hx]%elem_of_app; [by apply Hfresh|].
      apply Hfr in Hx. set_solver.
Qed.

(** ** The registry *)

Lemma hash_keys_irrelevant this ks state to_play :
  hash (mkKoHash (nums this) (toPlay this) ks) state to_play = hash this state to_play.
Proof. reflexivity. Qed.

(** C3 — registry exclusivity.  When [add(s, p)] has returned [h], a second
    [add(s, p)] throws the duplicate error and leaves the object as it was;
    [remove(h)] then answers [true], and after it [add(s, p)] returns [h]
    again. *)
Theorem add_remove_exclusive this state to_play h this1 :
  add this state to_play = (Normal h, this1) →
  add this1 state to_play = (Throw (DuplicateError h), this1) ∧
  ∃ this2, remove this1 h = (true, this2) ∧
    ∃ this3, add this2 state to_play = (Normal h, this3) ∧ h ∈ keys this3.
Proof.
  unfold add at 1.
  destruct (hash this state to_play) as [h0|e] eqn:Hhash; [|done].
  case_decide as Hin; [done|]. intros [= -> <-]. split.
  - unfold add. rewrite hash_keys_irrelevant, Hhash. simpl.
    rewrite decide_True by set_solver. done.
  - eexists. split.
    + unfold remove. simpl. rewrite bool_decide_eq_true_2 by set_solver. done.
    + unfold add. simpl. rewrite hash_keys_irrelevant, Hhash. simpl.
      rewrite decide_False by set_solver.
      eexists. split; [done|]. simpl. set_solver.
Qed.

Lemma add_remove_exclusive_witness :
  add (mkKoHash (nums sample_table) (toPlay sample_table) {[217]}) [1; 1] 1 =
    (Throw (DuplicateError 217),
     mkKoHash (nums sample_table) (toPlay sample_table) {[217]}) ∧
  ∃ this2,
    remove (mkKoHash (nums sample_table) (toPlay sample_table) {[217]}) 217 =
      (true, this2) ∧
    ∃ this3, add this2 [1; 1] 1 = (Normal 217, this3) ∧ 217 ∈ keys this3.
Proof.
  apply (add_remove_exclusive sample_table [1; 1] 1 217).
  vm_compute. reflexivity.
Defined.

(** ** The constructor *)

Lemma constructor_Some fuel rng size values situational this :
  constructor fuel rng size values situational = Some this →
  length (nums this) = Z.to_nat size ∧
  Forall (row_shape values) (nums this) ∧
  (situational = 0 → toPlay this = None) ∧
  (situational ≠ 0 →
     ∃ this_toPlay, toPlay this = Some this_toPlay ∧ row_shape situational this_toPlay) ∧
  NoDup (all_generated this) ∧
  keys this = ∅.
Proof.
  unfold constructor.
  destruct (constructor_for _ _ _ _ _ _ _) as [[[this_nums numbers] pos]|] eqn:Hfor;
    [|done].
  apply constructor_for_Some in Hfor as (rows & -> & Hlen & Hshape & Hnd & _ & ->).
  simpl in *. case_decide as Hsit.
  - intros [= <-]. unfold all_generated. simpl. rewrite app_nil_r.
    repeat split; try done.
  - destruct (initNumbers _ _ _ _ _) as [[[this_toPlay numbers1] pos1]|] eqn:Hrow;
      [|done].
    apply initNumbers_Some in Hrow as (gen & -> & Hgen & Hnd' & Hfresh & _).
    intros [= <-]. unfold all_generated. simpl.
    repeat split; try done.
    + intros _. exists (0 :: gen). split; [done|]. by exists gen.
    + apply NoDup_app. repeat split; [done| |done].
      intros x Hx Hx'. apply Hfresh in Hx'. set_solver.
Qed.

(** C5 — key uniqueness.  In every object the constructor returns, the
    generated keys of all the rows of [nums] and of [toPlay] are pairwise
    distinct, and index 0 of every row, and of [toPlay], holds 0. *)
Theorem constructor_keys_distinct fuel rng size values situational this :
  constructor fuel rng size values situational = Some this →
  NoDup (all_generated this) ∧
  Forall (λ row, row !! 0%nat = Some 0) (nums this) ∧
  (∀ this_toPlay, toPlay this = Some this_toPlay → this_toPlay !! 0%nat = Some 0).
Proof.
  intros (_ & Hshape & Hnone & Hsome & Hnd & _)%constructor_Some.
  repeat split; [done| |].
  - eapply Forall_impl; [exact Hshape|]. by intros row (gen & -> & _).
  - intros this_toPlay Htp. destruct (decide (situational = 0)) as [H0|H0].
    + rewrite (Hnone H0) in Htp. done.
    + destruct (Hsome H0) as (tp & Htp' & gen & -> & _). by simplify_eq.
Qed.

Lemma constructor_keys_distinct_witness :
  NoDup (all_generated sample_table) ∧
  Forall (λ row, row !! 0%nat = Some 0) (nums sample_table) ∧
  (∀ this_toPlay, toPlay sample_table = Some this_toPlay →
                  this_toPlay !! 0%nat = Some 0).
Proof.
  apply (constructor_keys_distinct 1 sample_rng 2 2 2 sample_table).
  vm_compute. reflexivity.
Defined.

(** *** No validation of the parameters *)

Lemma initNumbers_nonpositive fuel rng pos numbers quantity :
  quantity < 1 → initNumbers fuel rng pos numbers quantity = Some ([0], numbers, pos).
Proof.
  intros Hq. unfold initNumbers. by replace (Z.to_nat quantity) with 0%nat by lia.
Qed.

Lemma constructor_for_no_values fuel rng iters values pos numbers this_nums :
  values < 1 →
  constructor_for fuel rng iters values pos numbers this_nums =
    Some (this_nums ++ replicate iters [0], numbers, pos).
Proof.
  intros Hv. revert this_nums.
  induction iters as [|iters IH]; intros this_nums; simpl.
  - by rewrite app_nil_r.
  - rewrite initNumbers_nonpositive by done. rewrite IH.
    by rewrite <- app_assoc.
Qed.

(** C8, against the claim: the constructor returns an object for a size of
    0, for a negative size together with no value, and for a negative
    [situational]. *)
Lemma constructor_accepts_invalid :
  constructor 1 sample_rng 0 2 0 = Some (mkKoHash [] None ∅) ∧
  constructor 1 sample_rng (-1) 0 0 = Some (mkKoHash [] None ∅) ∧
  constructor 1 sample_rng 2 0 (-1) = Some (mkKoHash [[0]; [0]] (Some [0]) ∅).
Proof. repeat split. Qed.

(** *** The retry loop *)

(** C9, against the claim: no budget bounds the number of draws of a
    successful [do ... while] loop, and on a source that only ever draws a
    number of the set the loop is still running after any number of
    iterations; nothing stops it with an error. *)
Lemma retry_has_no_budget :
  (¬ ∃ budget, bounded_retry budget) ∧
  (∀ fuel, do_while fuel (draws [] 7) 0 {[7]} = None).
Proof.
  split.
  - intros [budget Hbounded].
    pose (rng := (λ k, if decide (k ≤ budget)%nat then 7 else 8) : RandomSource).
    specialize (Hbounded rng 0%nat {[7]} (S (S budget)) 8 (S (S budget))).
    enough ((S (S budget) - 0 ≤ S budget)%nat) by lia.
    apply Hbounded.
    assert (rng (S budget) = 8) as Hlast
      by (unfold rng; rewrite decide_False by lia; done).
    rewrite (do_while_first (S (S budget)) rng 0 {[7]} (S budget)).
    + rewrite Nat.add_0_l. by rewrite Hlast.
    + intros k Hk. rewrite Nat.add_0_l. unfold rng.
      rewrite decide_True by lia. set_solver.
    + rewrite Nat.add_0_l, Hlast. set_solver.
    + lia.
  - intros fuel. apply do_while_running. intros k _. unfold draws.
    change (7 ∈ ({[7]} : gset Z)). set_solver.
Qed.

(** C9, amended — a draw is retried for as long as the number drawn is in
    the exclusion set, without bound and without error.  When the first
    [n] draws are in the set and the next one is not, the loop returns that
    one after [n] retries (any allowance above [n] iterations shows it);
    when every draw is in the set the loop never returns. *)
Theorem do_while_retries_until_fresh (rng : RandomSource) (pos : nat) (numbers : gset Z) :
  (∀ n : nat,
     (∀ k : nat, (k < n)%nat → rng (pos + k)%nat ∈ numbers) →
     rng (pos + n)%nat ∉ numbers →
     (∀ fuel : nat, (n < fuel)%nat →
        do_while fuel rng pos numbers = Some (rng (pos + n)%nat, S (pos + n))) ∧
     (∀ fuel : nat, (fuel ≤ n)%nat → do_while fuel rng pos numbers = None)) ∧
  ((∀ k : nat, rng (pos + k)%nat ∈ numbers) →
   ∀ fuel : nat, do_while fuel rng pos numbers = None).
Proof.
  split.
  - intros n Hbefore Hfresh. split.
    + intros fuel Hfuel. by apply do_while_first.
    + intros fuel Hfuel. apply do_while_running. intros k Hk. apply Hbefore. lia.
  - intros Hall fuel. apply do_while_running. intros k _. apply Hall.
Qed.

Lemma do_while_retries_until_fresh_witness :
  do_while 3 (draws [100; 200; 300] 0) 0 {[100; 200]} = Some (300, 3%nat).
Proof.
  destruct (do_while_retries_until_fresh (draws [100; 200; 300] 0) 0 {[100; 200]})
    as [H _].
  destruct (H 2%nat) as [Hreturns _].
  - intros [|[|k]] Hk; [vm_compute; set_solver|vm_compute; set_solver|lia].
  - vm_compute. set_solver.
  - apply (Hreturns 3%nat). lia.
Defined.

(** *** The identity key and the exclusion set *)

Lemma constructor_for_numbers fuel rng iters values nums' numbers' pos' :
  constructor_for fuel rng iters values 0 ∅ [] = Some (nums', numbers', pos') →
  numbers' = list_to_set (generated nums').
Proof.
  intros (rows & -> & _ & _ & _ & _ & ->)%constructor_for_Some. simpl. set_solver.
Qed.

(** C10, against the claim: the exclusion set does come to hold 0.  With
    a first draw of 0 the set that the constructor has threaded after the
    row of vertex 0 is [{0}]; a second draw of 0 is then found in the set
    and retried, the next draw being taken. *)
Lemma exclusion_set_holds_generated_zero :
  in_key_range (draws [0; 0; 5] 1) ∧
  constructor_for 1 (draws [0; 0; 5] 1) 1 1 0 ∅ [] = Some ([[0; 0]], {[0]}, 1%nat) ∧
  0 ∈ ({[0]} : gset Z) ∧
  do_while 1 (draws [0; 0; 5] 1) 1 {[0]} = None ∧
  do_while 2 (draws [0; 0; 5] 1) 1 {[0]} = Some (5, 3%nat).
Proof.
  split; [key_range|]. split; [vm_compute; reflexivity|].
  split; [set_solver|]. split; vm_compute; reflexivity.
Qed.

(** C10, amended — the 0 that starts a row is never added to the
    exclusion set, which holds exactly the generated keys.  [initNumbers]
    adds to the set the numbers it generates and nothing else, so 0 is in
    the set afterwards only if it was there before or has been generated;
    the set that the constructor threads, empty at first, holds exactly the
    generated keys of the rows built so far, and holds 0 exactly when one of
    them is 0.  For a source whose first draw is 0 the constructor returns a
    row whose generated key is 0, equal to the identity key before it; a
    second draw of 0 is then retried, the generated keys being kept distinct
    from each other only. *)
Theorem identity_key_not_excluded :
  (∀ fuel rng pos numbers quantity row numbers' pos',
     initNumbers fuel rng pos numbers quantity = Some (row, numbers', pos') →
     ∃ gen, row = 0 :: gen ∧ numbers' = list_to_set gen ∪ numbers ∧
            (0 ∈ numbers' ↔ 0 ∈ gen ∨ 0 ∈ numbers)) ∧
  (∀ fuel rng iters values nums' numbers' pos',
     constructor_for fuel rng iters values 0 ∅ [] = Some (nums', numbers', pos') →
     numbers' = list_to_set (generated nums') ∧
     (0 ∈ numbers' ↔ 0 ∈ generated nums')) ∧
  (in_key_range (draws [0; 0; 5] 1) ∧
   constructor 1 (draws [0; 0; 5] 1) 1 1 0 = Some (mkKoHash [[0; 0]] None ∅) ∧
   constructor 2 (draws [0; 0; 5] 1) 1 2 0 = Some (mkKoHash [[0; 0; 5]] None ∅)).
Proof.
  split; [|split; [|split]].
  - intros fuel rng pos numbers quantity row numbers' pos' Hrow.
    apply initNumbers_Some in Hrow as (gen & -> & _ & _ & _ & ->).
    exists gen. split; [done|]. split; [done|]. set_solver.
  - intros fuel rng iters values nums' numbers' pos' Hfor.
    apply constructor_for_numbers in Hfor as ->. split; [done|]. set_solver.
  - key_range.
  - vm_compute. split; reflexivity.
Qed.

Lemma identity_key_not_excluded_witness :
  ∃ gen, [0; 0] = 0 :: gen ∧ ({[0]} : gset Z) = list_to_set gen ∪ ∅ ∧
         (0 ∈ ({[0]} : gset Z) ↔ 0 ∈ gen ∨ 0 ∈ (∅ : gset Z)).
Proof.
  destruct identity_key_not_excluded as [H _].
  apply (H 1%nat (draws [0; 0; 5] 1) 0%nat ∅ 1 [0; 0] {[0]} 1%nat).
  vm_compute. reflexivity.
Defined.

(** ** The fold *)

Lemma key_lookup this v val row :
  nums this !! v = Some row → key this v val = default 0 (index row val).
Proof. unfold key. by intros ->. Qed.

Lemma hash_callback_lookup this acc val v row :
  nums this !! v = Some row →
  hash_callback this acc val v = Normal (ToInt32 (Z.lxor acc (key this v val))).
Proof.
  intros Hrow. unfold hash_callback. rewrite Hrow, (key_lookup _ _ _ row) by done.
  destruct (index row val); simpl; [by rewrite xor_Some|].
  by rewrite xor_None, Z.lxor_0_r.
Qed.

Lemma ToInt32_spec_fold this v state acc :
  ToInt32 (spec_fold this v state (ToInt32 acc)) = ToInt32 (spec_fold this v state acc).
Proof.
  revert v acc. induction state as [|val state IH]; intros v acc; simpl.
  - apply ToInt32_idemp.
  - rewrite <- (IH _ (Z.lxor (ToInt32 acc) _)), <- (IH _ (Z.lxor acc _)).
    by rewrite !ToInt32_lxor, ToInt32_idemp.
Qed.

Lemma reduce_from_cons {A} (callback : A → A → nat → completion A) acc i val arr :
  reduce_from callback acc i (val :: arr) =
    match callback acc val i with
    | Normal acc' => reduce_from callback acc' (S i) arr
    | Throw e => Throw e
    end.
Proof. reflexivity. Qed.

(** From index [v] on, on a state that does not run past the table, the
    reduction XORs the keys into the accumulator and cuts to 32 bits at
    every step. *)
Lemma reduce_from_fold this acc v val state :
  (v + S (length state) ≤ length (nums this))%nat →
  reduce_from (hash_callback this) acc v (val :: state) =
    Normal (ToInt32 (spec_fold this v (val :: state) acc)).
Proof.
  revert acc v val. induction state as [|val' state IH]; intros acc v val Hlen.
  - simpl in *. destruct (lookup_lt_is_Some_2 (nums this) v) as [row Hrow]; [lia|].
    by rewrite (hash_callback_lookup _ _ _ _ row).
  - rewrite reduce_from_cons. simpl in Hlen.
    destruct (lookup_lt_is_Some_2 (nums this) v) as [row Hrow]; [lia|].
    rewrite (hash_callback_lookup _ _ _ _ row) by done.
    rewrite IH by (simpl; lia).
    change (spec_fold this v (val :: val' :: state) acc)
      with (spec_fold this (S v) (val' :: state) (Z.lxor acc (key this v val))).
    by rewrite ToInt32_spec_fold.
Qed.

(** What [state.reduce(...)] computes on a non-empty state that does not
    run past the table: the first element as it is when it is alone, and
    otherwise the first element, not its key, XORed with the keys of the
    vertices from 1 on, cut to 32 bits. *)
Lemma reduce_computes this first state :
  (S (length state) ≤ length (nums this))%nat →
  reduce (hash_callback this) (first :: state) =
    Normal (match state with
            | [] => first
            | _ :: _ => ToInt32 (spec_fold this 1 state first)
            end).
Proof.
  intros Hlen. destruct state as [|val state]; [done|].
  simpl in Hlen. unfold reduce. apply reduce_from_fold. simpl. lia.
Qed.

(** Every fingerprint that went through [^] is a signed 32-bit integer. *)
Lemma hash_int32 this first val state to_play h :
  hash this (first :: val :: state) to_play = Normal h → int32 h.
Proof.
  unfold hash, reduce. cbn [reduce_from]. unfold hash_callback at 1.
  destruct (nums this !! 1%nat) as [row|]; [|done].
  assert (∀ l acc v r, int32 acc →
            reduce_from (hash_callback this) acc v l = Normal r → int32 r) as Hred.
  { induction l as [|x l IH]; intros acc v r Hacc; simpl; [by intros [= <-]|].
    unfold hash_callback at 1. destruct (nums this !! v); [|done].
    apply IH, xor_int32. }
  destruct (reduce_from _ _ _ _) as [r|] eqn:Hr; [|done].
  apply Hred in Hr; [|apply xor_int32].
  destruct (toPlay this); intros [= <-]; [apply xor_int32|done].
Qed.

Lemma spec_fold_acc this v state acc :
  spec_fold this v state acc = Z.lxor acc (spec_fold this v state 0).
Proof.
  revert v acc. induction state as [|val state IH]; intros v acc; simpl.
  - by rewrite Z.lxor_0_r.
  - rewrite (IH _ (Z.lxor acc _)), (IH _ (Z.lxor 0 _)).
    by rewrite Z.lxor_0_l, Z.lxor_assoc.
Qed.

(** How [hash] stands to the fold of the specification, on a state of two
    vertices or more that does not run past the table: it is that fold with
    the value at vertex 0 in the place of the key of vertex 0, cut to a
    signed 32-bit integer. *)
Lemma hash_against_spec this first val state to_play :
  (2 + length state ≤ length (nums this))%nat →
  hash this (first :: val :: state) to_play =
    Normal (ToInt32 (Z.lxor (Z.lxor first (key this 0 first))
                       (spec_hash this (first :: val :: state) to_play))).
Proof.
  intros Hlen. unfold hash. rewrite reduce_computes by (simpl; lia).
  assert (spec_fold this 1 (val :: state) first =
          Z.lxor (Z.lxor first (key this 0 first))
            (spec_fold this 0 (first :: val :: state) 0)) as Hfold.
  { change (spec_fold this 0 (first :: val :: state) 0)
      with (spec_fold this 1 (val :: state) (Z.lxor 0 (key this 0 first))).
    rewrite (spec_fold_acc _ _ _ first), (spec_fold_acc _ _ _ (Z.lxor 0 _)).
    rewrite Z.lxor_0_l, <- !Z.lxor_assoc.
    rewrite (Z.lxor_assoc first), Z.lxor_nilpotent, Z.lxor_0_r. done. }
  unfold spec_hash. destruct (toPlay this) as [tp|]; [|by rewrite Hfold].
  f_equal. rewrite Hfold.
  destruct (index tp to_play) as [k|]; cbn [from_option].
  - by rewrite xor_Some, ToInt32_lxor_l, Z.lxor_assoc.
  - by rewrite xor_None, ToInt32_idemp, Z.lxor_0_r.
Qed.

(** Without [toPlay] the player to move is not looked at. *)
Lemma hash_positional this state to_play :
  toPlay this = None → hash this state to_play = hash this state 0.
Proof. unfold hash. by intros ->. Qed.

Lemma index_0 {A} (arr : list A) : index arr 0 = arr !! 0%nat.
Proof. reflexivity. Qed.

(** A non-empty state of zeros, not longer than the table, hashes to 0 for
    player 0 when index 0 of the rows and of [toPlay] holds 0. *)
Lemma hash_zero_state this n :
  (S n ≤ length (nums this))%nat →
  Forall (λ row, row !! 0%nat = Some 0) (nums this) →
  (∀ this_toPlay, toPlay this = Some this_toPlay → this_toPlay !! 0%nat = Some 0) →
  hash this (replicate (S n) 0) 0 = Normal 0.
Proof.
  intros Hlen Hrows Htp. unfold hash.
  assert (∀ m v, (v + m ≤ length (nums this))%nat →
            reduce_from (hash_callback this) 0 v (replicate m 0) = Normal 0) as Hred.
  { induction m as [|m IH]; intros v Hv; simpl; [done|].
    unfold hash_callback at 1.
    destruct (lookup_lt_is_Some_2 (nums this) v) as [row Hrow]; [lia|].
    rewrite Hrow. rewrite Forall_lookup in Hrows.
    rewrite index_0, (Hrows v row Hrow).
    rewrite xor_zero. change (ToInt32 0) with 0. apply IH. lia. }
  simpl. rewrite Hred by (simpl; lia).
  destruct (toPlay this) as [tp|] eqn:E; [|done].
  rewrite index_0, (Htp tp eq_refl). by rewrite xor_zero.
Qed.

(** X20 — the empty board.  On an object that the constructor returned,
    a non-empty state of zeros that fits the table hashes to 0 for
    player 0. *)
Lemma hash_zero_state_constructed fuel rng size values situational this n :
  constructor fuel rng size values situational = Some this →
  (S n ≤ Z.to_nat size)%nat →
  hash this (replicate (S n) 0) 0 = Normal 0.
Proof.
  intros (Hlen & Hshape & Hnone & Hsome & _)%constructor_Some Hn.
  apply hash_zero_state; [lia| |].
  - eapply Forall_impl; [exact Hshape|]. by intros row (gen & -> & _).
  - intros tp Htp. destruct (decide (situational = 0)) as [H0|H0].
    + rewrite (Hnone H0) in Htp. done.
    + destruct (Hsome H0) as (tp' & Htp' & gen & -> & _). by simplify_eq.
Qed.

(** C4 — the empty state.  The claim has [hash([], 0)] return 0; the
    reduction has no initial value, so on the empty state, which is the
    state of the table built with [size = 0], [hash] throws a TypeError
    whatever the table and the player. *)
Theorem hash_empty_state_throws :
  (∀ this to_play, hash this [] to_play = Throw TypeError) ∧
  constructor 1 sample_rng 0 2 0 = Some (mkKoHash [] None ∅) ∧
  hash (mkKoHash [] None ∅) [] 0 = Throw TypeError.
Proof. repeat split. Qed.

(** C1 — the fold over all vertices.  On the table built from the draws
    100, ..., 600 and the state [[1; 1]], the XOR of the keys of both
    vertices is 100 xor 300 = 328, and [hash] returns 1 xor 300 = 301: the
    accumulator starts as the value at vertex 0, whose key is never read. *)
Theorem hash_skips_first_key :
  constructor 1 sample_rng 2 2 2 = Some sample_table ∧
  hash sample_table [1; 1] 0 = Normal 301 ∧
  spec_hash sample_table [1; 1] 0 = 328 ∧
  hash sample_table [1; 1] 1 = Normal 217 ∧
  spec_hash sample_table [1; 1] 1 = 188.
Proof. vm_compute. repeat split. Qed.

(** C2 — single-vertex sensitivity.  In the table built from [wide_rng]
    the keys of the values 1 and 2 at vertex 1 are distinct, 1 and
    2^32 + 1, and the states [[0; 1]] and [[0; 2]], which differ at vertex 1
    only, have the same hash. *)
Theorem single_vertex_change_same_hash :
  in_key_range wide_rng ∧
  constructor 1 wide_rng 2 3 0 = Some wide_table ∧
  key wide_table 1 1 ≠ key wide_table 1 2 ∧
  hash wide_table [0; 1] 0 = Normal 1 ∧
  hash wide_table [0; 2] 0 = Normal 1.
Proof.
  split; [key_range|]. vm_compute. repeat split. discriminate.
Qed.

(** C6 — the width of the XOR.  On the same table the full-width XOR of
    the keys tells the states [[0; 1]] and [[0; 2]] apart, their keys
    differing in bit 32 only, while [hash] returns 1 for both; and the key
    2^31 of the state [[0; 3]] comes out as the negative number -2^31. *)
Theorem hash_truncates_to_int32 :
  spec_hash wide_table [0; 1] 0 = 1 ∧
  spec_hash wide_table [0; 2] 0 = 2 ^ 32 + 1 ∧
  hash wide_table [0; 1] 0 = hash wide_table [0; 2] 0 ∧
  spec_hash wide_table [0; 3] 0 = 2 ^ 31 ∧
  hash wide_table [0; 3] 0 = Normal (- 2 ^ 31).
Proof. vm_compute. repeat split. Qed.

(** C7 — the player to move.  With [situational = 1] and the player's key
    drawn as 2^32, the hashes of the state [[0; 1]] for the players 1 and 0
    are the same, 9, although the table has a key for player 1. *)
Theorem hash_same_for_both_players :
  in_key_range player_rng ∧
  constructor 1 player_rng 2 1 1 = Some player_table ∧
  index (default [] (toPlay player_table)) 1 = Some (2 ^ 32) ∧
  hash player_table [0; 1] 1 = Normal 9 ∧
  hash player_table [0; 1] 0 = Normal 9.
Proof.
  split; [key_range|]. vm_compute. repeat split.
Qed.

(** ** Draws that never collide *)

Lemma do_while_fresh fuel rng pos numbers :
  rng pos ∉ numbers → do_while (S fuel) rng pos numbers = Some (rng pos, S pos).
Proof. intros Hfresh. simpl. by rewrite decide_False. Qed.

Section distinct_draws.
Variable rng : RandomSource.
Hypothesis rng_inj : ∀ i j : nat, rng i = rng j → i = j.

Lemma initNumbers_for_returns fuel iters pos numbers newNumbers :
  drawn_before rng pos numbers →
  ∃ row numbers' pos',
    initNumbers_for (S fuel) rng iters pos numbers newNumbers =
      Some (row, numbers', pos') ∧
    drawn_before rng pos' numbers'.
Proof.
  revert pos numbers newNumbers.
  induction iters as [|iters IH]; intros pos numbers newNumbers Hbefore.
  - by exists newNumbers, numbers, pos.
  - cbn [initNumbers_for]. rewrite do_while_fresh.
    + apply IH. intros x [->%elem_of_singleton|Hx]%elem_of_union.
      * exists pos. split; [lia|done].
      * destruct (Hbefore x Hx) as (k & Hk & ->). exists k. split; [lia|done].
    + intros (k & Hk & Heq)%Hbefore. apply rng_inj in Heq. lia.
Qed.

Lemma constructor_for_returns fuel iters values pos numbers this_nums :
  drawn_before rng pos numbers →
  ∃ nums' numbers' pos',
    constructor_for (S fuel) rng iters values pos numbers this_nums =
      Some (nums', numbers', pos') ∧
    drawn_before rng pos' numbers'.
Proof.
  revert pos numbers this_nums.
  induction iters as [|iters IH]; intros pos numbers this_nums Hbefore.
  - by exists this_nums, numbers, pos.
  - cbn [constructor_for]. unfold initNumbers.
    destruct (initNumbers_for_returns fuel (Z.to_nat values) pos numbers [0] Hbefore)
      as (row & numbers1 & pos1 & -> & Hbefore1).
    by apply IH.
Qed.

(** On a source that never repeats a draw the constructor returns, every
    key being found at its first draw. *)
Lemma constructor_returns fuel size values situational :
  ∃ this, constructor (S fuel) rng size values situational = Some this.
Proof.
  unfold constructor.
  destruct (constructor_for_returns fuel (Z.to_nat size) values 0 ∅ [])
    as (this_nums & numbers & pos & -> & Hbefore); [set_solver|].
  case_decide; [by eexists|]. unfold initNumbers.
  destruct (initNumbers_for_returns fuel (Z.to_nat situational) pos numbers [0] Hbefore)
    as (row & numbers1 & pos1 & -> & _).
  by eexists.
Qed.
End distinct_draws.

(** *** Invalid parameters, again *)

(** C8, amended — the constructor validates nothing: a [size ≤ 0], a
    [values < 1] and a negative [situational] are taken like any other
    number.  With [size ≤ 0] or [values < 1], and [situational ≤ 0], no key
    is drawn and the constructor returns at once one row [[0]] per vertex
    (no row for [size ≤ 0]), with [toPlay = [0]] for a negative
    [situational] and no [toPlay] for 0.  Whatever the parameters, it
    returns on every source that never repeats a draw.  And whatever it
    returns, for whatever source, has an empty registry, no row when
    [size ≤ 0], rows [[0]] when [values < 1] and [toPlay = [0]] when
    [situational < 0]. *)
Theorem constructor_without_validation fuel rng size values situational :
  (size ≤ 0 ∨ values < 1 → situational ≤ 0 →
   constructor fuel rng size values situational =
     Some (mkKoHash (replicate (Z.to_nat size) [0])
             (if decide (situational = 0) then None else Some [0]) ∅)) ∧
  ((∀ i j : nat, rng i = rng j → i = j) →
   ∃ this, constructor (S fuel) rng size values situational = Some this) ∧
  (∀ this, constructor fuel rng size values situational = Some this →
     keys this = ∅ ∧
     (size ≤ 0 → nums this = []) ∧
     (values < 1 → nums this = replicate (Z.to_nat size) [0]) ∧
     (situational < 0 → toPlay this = Some [0])).
Proof.
  split; [|split].
  - intros [Hsz|Hv] Hs; unfold constructor.
    + replace (Z.to_nat size) with 0%nat by lia. simpl.
      case_decide; [done|]. by rewrite initNumbers_nonpositive by lia.
    + rewrite constructor_for_no_values by done. simpl.
      case_decide; [done|]. by rewrite initNumbers_nonpositive by lia.
  - intros Hinj. by apply constructor_returns.
  - intros this. unfold constructor.
    destruct (constructor_for _ _ _ _ _ _ _) as [[[this_nums numbers] pos]|] eqn:Hfor;
      [|done].
    assert (size ≤ 0 → this_nums = []) as Hempty.
    { intros Hsz. replace (Z.to_nat size) with 0%nat in Hfor by lia.
      simpl in Hfor. congruence. }
    assert (values < 1 → this_nums = replicate (Z.to_nat size) [0]) as Hrows.
    { intros Hv. rewrite constructor_for_no_values in Hfor by done.
      simpl in Hfor. congruence. }
    case_decide as Hsit.
    + intros [= <-]. simpl. repeat split; [done|done|lia].
    + destruct (initNumbers _ _ _ _ _) as [[[this_toPlay numbers1] pos1]|] eqn:Hrow;
        [|done].
      intros [= <-]. simpl. repeat split; [done|done|].
      intros Hneg. rewrite initNumbers_nonpositive in Hrow by lia. congruence.
Qed.

Lemma constructor_without_validation_witness :
  constructor 0 sample_rng 3 0 (-2) =
    Some (mkKoHash (replicate (Z.to_nat 3) [0])
            (if decide (-2 = 0) then None else Some [0]) ∅) ∧
  (∃ this, constructor 1 failing_test_rng 0 2 2 = Some this) ∧
  (keys (mkKoHash [] (Some [0; 1; 2]) ∅) = ∅ ∧
   (0 ≤ 0 → nums (mkKoHash [] (Some [0; 1; 2]) ∅) = []) ∧
   (2 < 1 → nums (mkKoHash [] (Some [0; 1; 2]) ∅) = replicate (Z.to_nat 0) [0]) ∧
   (2 < 0 → toPlay (mkKoHash [] (Some [0; 1; 2]) ∅) = Some [0])).
Proof.
  split; [|split].
  - destruct (constructor_without_validation 0 sample_rng 3 0 (-2)) as [H _].
    apply H; lia.
  - destruct (constructor_without_validation 0 failing_test_rng 0 2 2) as (_ & H & _).
    apply H. intros i j. unfold failing_test_rng.
    repeat case_decide; intros Heq; lia.
  - destruct (constructor_without_validation 1 failing_test_rng 0 2 2) as (_ & _ & H).
    apply H. vm_compute. reflexivity.
Defined.

(** ** The BigInt variant *)

Lemma randomBigInt_zero_bits pos :
  ZobristHash.randomBigInt 64 (λ _, false) pos = (Normal 0, (64 + pos)%nat).
Proof. reflexivity. Qed.

(** The same unbounded loop: on bits that are all 0 and a set that holds 0,
    it does not return. *)
Lemma ZobristHash_do_while_running fuel pos :
  ZobristHash.do_while fuel (λ _, false) pos {[0]} = None.
Proof.
  revert pos. induction fuel as [|fuel IH]; intros pos; [done|].
  cbn [ZobristHash.do_while]. rewrite randomBigInt_zero_bits.
  rewrite decide_True by set_solver. apply IH.
Qed.

(** The same unguarded identity: the row starts with the number 0, which the
    set of BigInts never holds, and the BigInt 0 can be drawn after it. *)
Lemma ZobristHash_initBigInts_zero :
  ZobristHash.initBigInts 1 (λ _, false) 0 ∅ 1 =
    Some (Normal [ZobristHash.Num 0; ZobristHash.Big 0], {[0]}, 64%nat).
Proof. vm_compute. reflexivity. Qed.

(** Two BigInt keys are XORed at full width; but the reduction starts from
    the first element of the state, a number, and the row starts with the
    number 0: on a state of numbers the first key met makes [^] throw. *)
Lemma ZobristHash_hash_mixes_kinds :
  ZobristHash.initBigInts 1 (ZobristHash.bits_of [1; 4294967297]) 0 ∅ 2 =
    Some (Normal [ZobristHash.Num 0; ZobristHash.Big 1; ZobristHash.Big 4294967297],
          {[1; 4294967297]}, 128%nat) ∧
  (let this :=
     ZobristHash.mkZobristHash
       [[ZobristHash.Num 0; ZobristHash.Big 7; ZobristHash.Big 9];
        [ZobristHash.Num 0; ZobristHash.Big 1; ZobristHash.Big 4294967297]] None ∅ in
   ZobristHash.hash this [ZobristHash.Num 0; ZobristHash.Num 0] 0 =
     Normal (ZobristHash.Num 0) ∧
   ZobristHash.hash this [ZobristHash.Num 0; ZobristHash.Num 1] 0 = Throw TypeError ∧
   ZobristHash.hash this [ZobristHash.Big 0; ZobristHash.Num 1] 0 =
     Normal (ZobristHash.Big 1) ∧
   ZobristHash.hash this [ZobristHash.Big 0; ZobristHash.Num 2] 0 =
     Normal (ZobristHash.Big 4294967297)).
Proof. vm_compute. repeat split. Qed.

Lemma ZobristHash_hash_number_state_throws this first val state to_play row k :
  ZobristHash.nums this !! 1%nat = Some row →
  index row val = Some (ZobristHash.Big k) →
  ZobristHash.hash this
    (ZobristHash.Num first :: ZobristHash.Num val :: state) to_play = Throw TypeError.
Proof.
  intros Hrow Hkey. unfold ZobristHash.hash, reduce.
  rewrite reduce_from_cons. unfold ZobristHash.hash_callback at 1.
  rewrite Hrow. simpl. by rewrite Hkey.
Qed.

(** ** More on the fold: errors and bounds *)

(** XOR identities are settled bit by bit. *)
Ltac xor_bits :=
  apply Z.bits_inj'; intros ? _; rewrite ?Z.lxor_spec, ?Z.bits_0;
  repeat match goal with |- context [Z.testbit ?x ?n] => destruct (Z.testbit x n) end;
  reflexivity.

Lemma reduce_from_Normal this acc v state :
  (v + length state ≤ length (nums this))%nat →
  ∃ r, reduce_from (hash_callback this) acc v state = Normal r.
Proof.
  revert acc v. induction state as [|val state IH]; intros acc v Hlen; simpl in *.
  - by eexists.
  - unfold hash_callback at 1.
    destruct (lookup_lt_is_Some_2 (nums this) v) as [row ->]; [lia|].
    apply IH. lia.
Qed.

Lemma reduce_from_Throw this acc v state :
  state ≠ [] → (length (nums this) < v + length state)%nat →
  reduce_from (hash_callback this) acc v state = Throw TypeError.
Proof.
  revert acc v. induction state as [|val state IH]; intros acc v Hne Hlen; [done|].
  simpl in *. unfold hash_callback at 1.
  destruct (nums this !! v) as [row|] eqn:Hrow; [|done].
  apply lookup_lt_Some in Hrow.
  destruct state as [|val' state]; [simpl in *; lia|].
  apply IH; [done|simpl in *; lia].
Qed.

(** X1 — when [hash] throws.  [hash] throws a TypeError exactly on the
    empty state and on a state of two elements or more that is longer than
    [this.nums]; it throws nothing else, and in every other case it returns
    a number.  A state of one element is hashed whatever the table. *)
Theorem hash_throws_iff this state to_play :
  (hash this state to_play = Throw TypeError ↔
     state = [] ∨ (2 ≤ length state ∧ length (nums this) < length state)%nat) ∧
  (∀ e, hash this state to_play = Throw e → e = TypeError) ∧
  (state ≠ [] → (length state = 1 ∨ length state ≤ length (nums this))%nat →
   ∃ h, hash this state to_play = Normal h).
Proof.
  assert (state ≠ [] → (length state = 1 ∨ length state ≤ length (nums this))%nat →
          ∃ h, hash this state to_play = Normal h) as Hreturns.
  { intros Hne Hlen. destruct state as [|first state]; [done|].
    unfold hash, reduce. destruct state as [|val state].
    - simpl. destruct (toPlay this); by eexists.
    - destruct (reduce_from_Normal this first 1 (val :: state)) as [r ->].
      + simpl in *. lia.
      + destruct (toPlay this); by eexists. }
  assert ((2 ≤ length state ∧ length (nums this) < length state)%nat →
          hash this state to_play = Throw TypeError) as Hthrows.
  { intros [H2 Hlen]. destruct state as [|first state]; [simpl in *; lia|].
    unfold hash, reduce. rewrite reduce_from_Throw; [done| |simpl in *; lia].
    destruct state; [simpl in *; lia|done]. }
  assert (hash this state to_play = Throw TypeError ↔
          state = [] ∨ (2 ≤ length state ∧ length (nums this) < length state)%nat)
    as Hiff.
  { split.
    - intros Hthrow. destruct state as [|first state]; [by left|right].
      destruct (decide (length (first :: state) = 1 ∨
                        length (first :: state) ≤ length (nums this))%nat) as [Hok|Hbad].
      + destruct (Hreturns ltac:(done) Hok) as [h Hh]. by rewrite Hh in Hthrow.
      + simpl in *. lia.
    - intros [->|Hlong]; [done|by apply Hthrows]. }
  split; [done|]. split; [|done].
  intros e He. destruct (decide (state = [])) as [->|Hne].
  - by injection He as <-.
  - destruct (decide (length state = 1 ∨ length state ≤ length (nums this))%nat)
      as [Hok|Hbad].
    + destruct (Hreturns Hne Hok) as [h Hh]. by rewrite Hh in He.
    + rewrite Hthrows in He by lia. by injection He as <-.
Qed.

Lemma hash_throws_iff_witness :
  ∃ h, hash sample_table [2; 1] 1 = Normal h.
Proof.
  destruct (hash_throws_iff sample_table [2; 1] 1) as (_ & _ & H).
  apply H; [done|]. right. vm_compute. lia.
Defined.

(** X2 — every fingerprint that met [^] is a signed 32-bit integer: the
    hash of a state of two elements or more, and every hash of an object
    that has [toPlay]. *)
Theorem hash_fingerprint_range this state to_play h :
  hash this state to_play = Normal h →
  (2 ≤ length state)%nat ∨ is_Some (toPlay this) →
  int32 h.
Proof.
  intros Hh [Hlen|[tp Htp]].
  - destruct state as [|first [|val state]]; [simpl in Hlen; lia..|].
    by apply hash_int32 in Hh.
  - unfold hash in Hh. destruct (reduce _ _) as [r|]; [|done].
    rewrite Htp in Hh. injection Hh as <-. apply xor_int32.
Qed.

Lemma hash_fingerprint_range_witness : int32 217.
Proof.
  apply (hash_fingerprint_range sample_table [1; 1] 1 217); [done|].
  left. simpl. lia.
Defined.

(** ** One vertex at a time *)

Lemma hash_callback_rows_after this this' :
  (∀ i : nat, (1 ≤ i)%nat → nums this !! i = nums this' !! i) →
  ∀ state acc v, (1 ≤ v)%nat →
    reduce_from (hash_callback this) acc v state =
    reduce_from (hash_callback this') acc v state.
Proof.
  intros Hrows. induction state as [|val state IH]; intros acc v Hv; [done|].
  simpl. unfold hash_callback at 1 3. rewrite (Hrows v Hv).
  destruct (nums this' !! v); [|done]. apply IH. lia.
Qed.

(** X3 — the keys of vertex 0 are never read: two objects that differ in
    the row of vertex 0 only (and in their registries) give every state
    the same hash. *)
Theorem hash_first_row_unused row0 row0' rows this_toPlay ks ks' state to_play :
  hash (mkKoHash (row0 :: rows) this_toPlay ks) state to_play =
  hash (mkKoHash (row0' :: rows) this_toPlay ks') state to_play.
Proof.
  unfold hash, reduce. destruct state as [|first state]; [done|].
  rewrite (hash_callback_rows_after _ (mkKoHash (row0' :: rows) this_toPlay ks'));
    [done| |lia].
  intros [|i] Hi; [lia|done].
Qed.

Lemma spec_fold_insert this i (j : nat) state acc a b :
  state !! j = Some a →
  spec_fold this i (<[j:=b]> state) acc =
    Z.lxor (spec_fold this i state acc)
      (Z.lxor (key this (i + j) a) (key this (i + j) b)).
Proof.
  revert i j acc. induction state as [|val state IH]; intros i j acc Hj; [done|].
  destruct j as [|j]; simpl in *.
  - injection Hj as ->. rewrite Nat.add_0_r.
    rewrite (spec_fold_acc _ _ _ (Z.lxor acc (key this i b))).
    rewrite (spec_fold_acc _ _ _ (Z.lxor acc (key this i a))).
    xor_bits.
  - rewrite (IH (S i) j _ Hj). by rewrite Nat.add_succ_r.
Qed.

Lemma spec_hash_insert this (v : nat) state to_play a b :
  state !! v = Some a →
  spec_hash this (<[v:=b]> state) to_play =
    Z.lxor (spec_hash this state to_play) (Z.lxor (key this v a) (key this v b)).
Proof.
  intros Hv. unfold spec_hash. rewrite (spec_fold_insert _ _ _ _ _ a) by done.
  rewrite Nat.add_0_l. destruct (toPlay this); [xor_bits|done].
Qed.

Lemma hash_insert this (v : nat) state to_play a b h :
  (1 ≤ v)%nat →
  (length state ≤ length (nums this))%nat →
  state !! v = Some a →
  hash this state to_play = Normal h →
  hash this (<[v:=b]> state) to_play =
    Normal (ToInt32 (Z.lxor h (Z.lxor (key this v a) (key this v b)))).
Proof.
  intros Hv Hlen Ha Hh.
  destruct state as [|first [|val state]];
    [done|by destruct v as [|[|v]]; [lia|..]|].
  destruct v as [|v]; [lia|].
  change (<[S v:=b]> (first :: val :: state))
    with (first :: <[v:=b]> (val :: state)).
  destruct (<[v:=b]> (val :: state)) as [|val' state'] eqn:Hins.
  { apply (f_equal length) in Hins. rewrite length_insert in Hins. done. }
  rewrite hash_against_spec in Hh by (simpl in *; lia).
  rewrite hash_against_spec.
  2:{ apply (f_equal length) in Hins. rewrite length_insert in Hins.
      simpl in *. lia. }
  injection Hh as <-. f_equal. rewrite <- Hins.
  change (first :: <[v:=b]> (val :: state))
    with (<[S v:=b]> (first :: val :: state)).
  rewrite (spec_hash_insert _ _ _ _ a) by done.
  rewrite ToInt32_lxor_l. f_equal. xor_bits.
Qed.

(** X4 — changing one vertex.  On a state that fits the table, replacing
    the value [a] at a vertex [v ≥ 1] by [b] XORs the keys of [a] and of [b]
    into the hash, within 32 bits; the hash is unchanged exactly when the
    two keys agree on their low 32 bits. *)
Theorem hash_vertex_change this (v : nat) state to_play a b h :
  (1 ≤ v)%nat →
  (length state ≤ length (nums this))%nat →
  state !! v = Some a →
  hash this state to_play = Normal h →
  hash this (<[v:=b]> state) to_play =
    Normal (ToInt32 (Z.lxor h (Z.lxor (key this v a) (key this v b)))) ∧
  (hash this (<[v:=b]> state) to_play = hash this state to_play ↔
   ToInt32 (key this v a) = ToInt32 (key this v b)).
Proof.
  intros Hv Hlen Ha Hh.
  pose proof (hash_insert this v state to_play a b h Hv Hlen Ha Hh) as Hins.
  split; [done|]. rewrite Hins, Hh.
  assert (int32 h) as Hint.
  { destruct state as [|first [|val state]];
      [done|by destruct v as [|[|v]]; [lia|..]|].
    by apply hash_int32 in Hh. }
  rewrite !ToInt32_lxor, (ToInt32_small h) by done.
  split.
  - intros [= Heq]. apply Z.lxor_eq_0_iff.
    apply (lxor_cancel_l h). by rewrite Z.lxor_0_r.
  - intros ->. by rewrite Z.lxor_nilpotent, Z.lxor_0_r.
Qed.

Lemma hash_vertex_change_witness :
  hash wide_table (<[1%nat:=2]> [0; 1]) 0 =
    Normal (ToInt32 (Z.lxor 1 (Z.lxor (key wide_table 1 1) (key wide_table 1 2)))) ∧
  (hash wide_table (<[1%nat:=2]> [0; 1]) 0 = hash wide_table [0; 1] 0 ↔
   ToInt32 (key wide_table 1 1) = ToInt32 (key wide_table 1 2)).
Proof.
  apply (hash_vertex_change wide_table 1 [0; 1] 0 1 2 1);
    [lia|simpl; lia|reflexivity|reflexivity].
Defined.

(** ** Objects that the constructor built *)

Lemma hash_returns this state to_play :
  state ≠ [] → (length state ≤ length (nums this))%nat →
  ∃ h, hash this state to_play = Normal h.
Proof.
  intros Hne Hlen. destruct state as [|first state]; [done|].
  unfold hash, reduce.
  destruct (reduce_from_Normal this first 1 state) as [r ->]; [simpl in *; lia|].
  destruct (toPlay this); by eexists.
Qed.

Lemma index_row_shape quantity row a :
  row_shape quantity row →
  index row 0 = Some 0 ∧ (a < 0 ∨ Z.max 0 quantity < a → index row a = None).
Proof.
  intros (gen & -> & Hgen). split; [done|].
  intros Ha. unfold index. case_decide; [|done].
  apply lookup_ge_None. simpl. lia.
Qed.

Lemma key_row_shape this v values row a :
  nums this !! v = Some row → row_shape values row →
  key this v 0 = 0 ∧ (a < 0 ∨ Z.max 0 values < a → key this v a = 0).
Proof.
  intros Hrow Hshape. rewrite !(key_lookup _ _ _ row) by done.
  destruct (index_row_shape values row a Hshape) as [-> Hout].
  split; [done|]. intros Ha. by rewrite Hout.
Qed.

(** X5 — values outside the table.  On an object that the constructor
    returned and a state that fits it, a value at a vertex [v ≥ 1] that is
    negative or above [values] counts as the empty value 0: no error is
    raised for it and the hash is that of the state with 0 at [v]. *)
Theorem hash_value_out_of_range fuel rng size values situational this
    (v : nat) state to_play a :
  constructor fuel rng size values situational = Some this →
  (1 ≤ v)%nat →
  (length state ≤ Z.to_nat size)%nat →
  state !! v = Some a →
  a < 0 ∨ Z.max 0 values < a →
  hash this (<[v:=0]> state) to_play = hash this state to_play.
Proof.
  intros (Hsize & Hshape & _)%constructor_Some Hv Hlen Ha Hout.
  rewrite <- Hsize in Hlen.
  destruct (hash_returns this state to_play) as [h Hh]; [by destruct state|done|].
  rewrite (hash_insert this v state to_play a 0 h) by done. rewrite Hh.
  assert (v < length (nums this))%nat as Hvlt
    by (apply lookup_lt_Some in Ha; lia).
  destruct (lookup_lt_is_Some_2 _ _ Hvlt) as [row Hrow].
  rewrite Forall_lookup in Hshape.
  destruct (key_row_shape this v values row a Hrow (Hshape v row Hrow)) as [-> ->];
    [|done].
  rewrite Z.lxor_nilpotent, Z.lxor_0_r. f_equal. apply ToInt32_small.
  destruct state as [|first [|val state]];
    [done|by destruct v as [|[|v']]; [lia|..]|].
  by apply hash_int32 in Hh.
Qed.

Lemma hash_value_out_of_range_witness :
  hash sample_table (<[1%nat:=0]> [1; 7]) 1 = hash sample_table [1; 7] 1.
Proof.
  apply (hash_value_out_of_range 1 sample_rng 2 2 2 sample_table 1 [1; 7] 1 7);
    [vm_compute; reflexivity|lia|simpl; lia|reflexivity|lia].
Defined.

(** X6 — the player to move.  On an object built with [situational = 0]
    the player is ignored; on an object built with another [situational] a
    player that is negative or above [situational] is hashed as player 0. *)
Theorem hash_player_out_of_range fuel rng size values situational this state :
  constructor fuel rng size values situational = Some this →
  (situational = 0 → ∀ p q, hash this state p = hash this state q) ∧
  (∀ p, p < 0 ∨ Z.max 0 situational < p → hash this state p = hash this state 0).
Proof.
  intros (_ & _ & Hnone & Hsome & _)%constructor_Some.
  destruct (decide (situational = 0)) as [H0|H0].
  - split.
    + intros _ p q. rewrite (hash_positional _ _ p (Hnone H0)).
      by rewrite (hash_positional _ _ q (Hnone H0)).
    + intros p _. apply hash_positional, Hnone, H0.
  - split; [done|]. intros p Hp. unfold hash.
    destruct (reduce _ _) as [r|]; [|done].
    destruct (Hsome H0) as (tp & -> & Hshape).
    destruct (index_row_shape situational tp p Hshape) as [-> ->]; [|done].
    by rewrite xor_None, xor_zero.
Qed.

Lemma hash_player_out_of_range_witness :
  hash sample_table [1; 1] 3 = hash sample_table [1; 1] 0.
Proof.
  destruct (hash_player_out_of_range 1 sample_rng 2 2 2 sample_table [1; 1])
    as [_ H]; [vm_compute; reflexivity|].
  apply H. lia.
Defined.

(** X7 — what the hash is made of.  On an object that the constructor
    returned and a state of two vertices or more that fits it, the hash is
    the fingerprint of the specification for the state with vertex 0
    emptied, XORed with the value (not the key) at vertex 0 and cut to a
    signed 32-bit integer. *)
Theorem hash_constructed_fold fuel rng size values situational this
    first val state to_play :
  constructor fuel rng size values situational = Some this →
  (2 + length state ≤ Z.to_nat size)%nat →
  hash this (first :: val :: state) to_play =
    Normal (ToInt32 (Z.lxor first (spec_hash this (0 :: val :: state) to_play))).
Proof.
  intros (Hsize & Hshape & _)%constructor_Some Hlen.
  rewrite <- Hsize in Hlen. rewrite hash_against_spec by done.
  change (first :: val :: state) with (<[0%nat:=first]> (0 :: val :: state)) at 1.
  rewrite (spec_hash_insert _ _ _ _ 0) by done.
  destruct (lookup_lt_is_Some_2 (nums this) 0) as [row Hrow]; [lia|].
  rewrite Forall_lookup in Hshape.
  destruct (key_row_shape this 0 values row 0 Hrow (Hshape _ _ Hrow)) as [-> _].
  f_equal. f_equal. xor_bits.
Qed.

Lemma hash_constructed_fold_witness :
  hash sample_table [1; 1] 1 =
    Normal (ToInt32 (Z.lxor 1 (spec_hash sample_table [0; 1] 1))).
Proof.
  apply (hash_constructed_fold 1 sample_rng 2 2 2 sample_table 1 1 [] 1);
    [vm_compute; reflexivity|simpl; lia].
Defined.

(** ** More on the registry *)

Lemma add_Normal this state to_play h this1 :
  add this state to_play = (Normal h, this1) →
  hash this state to_play = Normal h ∧ (h ∉ keys this) ∧
  this1 = mkKoHash (nums this) (toPlay this) ({[h]} ∪ keys this).
Proof.
  unfold add. destruct (hash this state to_play) as [h0|e]; [|done].
  case_decide; [done|]. by intros [= -> <-].
Qed.

Lemma add_table this state to_play :
  nums (add this state to_play).2 = nums this ∧
  toPlay (add this state to_play).2 = toPlay this.
Proof.
  unfold add. destruct (hash this state to_play) as [h|e]; [|done].
  by case_decide.
Qed.

Lemma hash_same_table this this' state to_play :
  nums this' = nums this → toPlay this' = toPlay this →
  hash this' state to_play = hash this state to_play.
Proof.
  destruct this, this'. simpl. by intros -> ->.
Qed.

(** X8 — [add] then [remove] is a round trip.  When [add] has returned
    [h], [remove(h)] answers [true] and gives back the object as it was
    before the [add]. *)
Theorem add_remove_round_trip this state to_play h this1 :
  add this state to_play = (Normal h, this1) →
  remove this1 h = (true, this).
Proof.
  intros (_ & Hnew & ->)%add_Normal. unfold remove. simpl.
  rewrite bool_decide_eq_true_2 by set_solver.
  destruct this as [ns tp ks]. simpl in *. do 2 f_equal. set_solver.
Qed.

Lemma add_remove_round_trip_witness :
  remove (mkKoHash (nums sample_table) (toPlay sample_table) ({[217]} ∪ ∅)) 217 =
    (true, sample_table).
Proof.
  apply (add_remove_round_trip sample_table [1; 1] 1 217). reflexivity.
Defined.

(** X9 — removing what is not there.  [remove] of a key that is not
    registered answers [false] and changes nothing; after any [remove(key)]
    a second [remove(key)] answers [false]. *)
Theorem remove_absent this key :
  (key ∉ keys this → remove this key = (false, this)) ∧
  (remove (remove this key).2 key = (false, (remove this key).2)).
Proof.
  assert (∀ t : KoHash, key ∉ keys t → remove t key = (false, t)) as Habsent.
  { intros [ns tp ks] Hk. unfold remove. simpl in *.
    rewrite bool_decide_eq_false_2 by done. do 2 f_equal. set_solver. }
  split; [apply Habsent|]. apply Habsent. simpl.
  apply not_elem_of_difference. right. by apply elem_of_singleton.
Qed.

Lemma remove_absent_witness : remove sample_table 5 = (false, sample_table).
Proof.
  destruct (remove_absent sample_table 5) as [H _]. apply H.
  vm_compute. set_solver.
Defined.

(** X10 — a collision is taken for a repetition.  When two states have the
    same hash and the first has been added, [add] of the second throws the
    duplicate error and leaves the object as it is, whether or not the
    states are the same position. *)
Theorem add_collision_rejected this state to_play state' to_play' h this1 :
  add this state to_play = (Normal h, this1) →
  hash this state' to_play' = Normal h →
  add this1 state' to_play' = (Throw (DuplicateError h), this1).
Proof.
  intros (_ & _ & ->)%add_Normal Hh'. unfold add.
  rewrite hash_keys_irrelevant, Hh'. simpl.
  by rewrite decide_True by set_solver.
Qed.

Lemma add_collision_rejected_witness :
  add (mkKoHash (nums wide_table) (toPlay wide_table) ({[1]} ∪ ∅)) [0; 2] 0 =
    (Throw (DuplicateError 1),
     mkKoHash (nums wide_table) (toPlay wide_table) ({[1]} ∪ ∅)).
Proof.
  apply (add_collision_rejected wide_table [0; 1] 0 [0; 2] 0 1); reflexivity.
Defined.

Lemma run_call_table this c :
  nums (run_call this c) = nums this ∧ toPlay (run_call this c) = toPlay this.
Proof. destruct c; [apply add_table|done]. Qed.

Lemma run_call_keys this c k :
  k ∈ keys (run_call this c) →
  (k ∈ keys this) ∨
  (∃ state to_play, c = Add state to_play ∧ hash this state to_play = Normal k).
Proof.
  destruct c as [state to_play|key]; simpl.
  - destruct (add this state to_play) as [[h|e] this1] eqn:Hadd; simpl.
    + apply add_Normal in Hadd as (Hh & _ & ->). simpl.
      intros [->%elem_of_singleton|Hk]%elem_of_union; [right|by left].
      by exists state, to_play.
    + unfold add in Hadd. destruct (hash this state to_play); [|by injection Hadd as _ <-; left].
      case_decide; [|done]. injection Hadd as _ <-. by left.
  - set_solver.
Qed.

(** X11 — what calls to the registry keep.  Whatever sequence of [add] and
    [remove] calls is made on an object, its [nums] and [toPlay] are the
    same afterwards, so every state keeps its hash; and every registered
    key was registered before or is the hash of a state that one of the
    calls added. *)
Theorem run_keeps_table calls this :
  nums (run calls this) = nums this ∧
  toPlay (run calls this) = toPlay this ∧
  (∀ state to_play, hash (run calls this) state to_play = hash this state to_play) ∧
  (∀ k, k ∈ keys (run calls this) →
        (k ∈ keys this) ∨
        (∃ state to_play, Add state to_play ∈ calls ∧
                          hash this state to_play = Normal k)).
Proof.
  revert this. induction calls as [|c calls IH]; intros this.
  - split; [done|]. split; [done|]. split; [done|]. intros k Hk. by left.
  - unfold run in *. simpl.
    destruct (IH (run_call this c)) as (Hn & Ht & Hh & Hk).
    destruct (run_call_table this c) as [Hn' Ht'].
    split; [|split; [|split]].
    + by rewrite Hn.
    + by rewrite Ht.
    + intros state to_play. rewrite Hh. by apply hash_same_table.
    + intros k [Hin|(state & to_play & Hin & Hhash)]%Hk.
      * apply run_call_keys in Hin as [?|(state & to_play & -> & Hhash)]; [by left|].
        right. exists state, to_play. split; [by left|done].
      * right. exists state, to_play. split; [by right|].
        by rewrite <- (hash_same_table this (run_call this c)).
Qed.

Lemma run_keeps_table_witness :
  (217 ∈ keys sample_table) ∨
  (∃ state to_play,
     Add state to_play ∈ [Add [1; 1] 1; Remove 3; Add [1; 1] 1] ∧
     hash sample_table state to_play = Normal 217).
Proof.
  destruct (run_keeps_table [Add [1; 1] 1; Remove 3; Add [1; 1] 1] sample_table)
    as (_ & _ & _ & H).
  apply H. vm_compute. set_solver.
Defined.

(** ** The test of the repository *)

(** X12 — when the test passes.  On every object that
    [new KoHash(81,2,2)] returns, the test 'should handle adding positions'
    passes exactly when the key of value 2 at vertex 12 has a non-zero low
    32-bit part. *)
Theorem test_passes_iff fuel rng zobrist :
  constructor fuel rng 81 2 2 = Some zobrist →
  should_handle_adding_positions zobrist =
    bool_decide (ToInt32 (key zobrist 12 2) ≠ 0).
Proof.
  intros (Hsize & Hshape & _ & _ & _ & Hkeys)%constructor_Some.
  unfold should_handle_adding_positions.
  set (arr := <[11%nat:=1]> (<[10%nat:=2]> (replicate 81 0))).
  assert (length arr = 81%nat) as Hlen
    by (unfold arr; by rewrite !length_insert, length_replicate).
  assert (arr !! 12%nat = Some 0) as H12.
  { unfold arr. rewrite !list_lookup_insert_ne by lia.
    apply lookup_replicate. split; [done|lia]. }
  destruct (hash_returns zobrist arr 0) as [h1 Hh1].
  { intros Hnil. by rewrite Hnil in Hlen. }
  { rewrite Hsize, Hlen. lia. }
  assert (int32 h1) as Hint.
  { destruct arr as [|first [|val arr']]; [done|done|]. by apply hash_int32 in Hh1. }
  pose proof (hash_insert zobrist 12 arr 0 0 2 h1) as Hh2.
  rewrite Hsize, Hlen in Hh2.
  specialize (Hh2 ltac:(lia) ltac:(lia) H12 Hh1).
  destruct (lookup_lt_is_Some_2 (nums zobrist) 12) as [row Hrow]; [lia|].
  rewrite Forall_lookup in Hshape.
  destruct (key_row_shape zobrist 12 2 row 0 Hrow (Hshape _ _ Hrow)) as [Hk0 _].
  rewrite Hk0, Z.lxor_0_l, ToInt32_lxor, (ToInt32_small h1) in Hh2 by done.
  assert (Z.lxor h1 (ToInt32 (key zobrist 12 2)) = h1 ↔
          ToInt32 (key zobrist 12 2) = 0) as Hsame.
  { split.
    - intros Heq. apply (lxor_cancel_l h1). by rewrite Z.lxor_0_r.
    - intros ->. apply Z.lxor_0_r. }
  clearbody arr.
  unfold add at 1. rewrite Hh1, Hkeys. rewrite decide_False by set_solver.
  unfold add at 1. rewrite hash_keys_irrelevant, Hh1. cbn [keys].
  rewrite decide_True by set_solver. cbv zeta.
  unfold add at 1. rewrite hash_keys_irrelevant, Hh2. cbn [keys].
  case_decide as Hin.
  - symmetry. apply bool_decide_eq_false_2. intros Hne. apply Hne, Hsame.
    set_solver.
  - rewrite bool_decide_eq_true_2.
    + symmetry. apply bool_decide_eq_true_2. intros H0. apply Hin.
      apply Hsame in H0. set_solver.
    + intros Heq. apply Hin. set_solver.
Qed.

Lemma test_passes_iff_witness :
  should_handle_adding_positions failing_test_table =
    bool_decide (ToInt32 (key failing_test_table 12 2) ≠ 0).
Proof.
  apply (test_passes_iff 1 failing_test_rng failing_test_table).
  vm_compute. reflexivity.
Defined.

(** ** More on the constructor *)

(** X13 — the shape of what the constructor returns.  [nums] has one row
    per vertex ([size] of them, none for a negative [size]); every row
    holds [values + 1] numbers and starts with 0; [toPlay] exists exactly
    when [situational] is not 0 and then holds [situational + 1] numbers,
    the first of them 0; the registry is empty. *)
Theorem constructor_shape fuel rng size values situational this :
  constructor fuel rng size values situational = Some this →
  length (nums this) = Z.to_nat size ∧
  Forall (λ row, length row = S (Z.to_nat values) ∧ row !! 0%nat = Some 0)
    (nums this) ∧
  (toPlay this = None ↔ situational = 0) ∧
  (∀ this_toPlay, toPlay this = Some this_toPlay →
     length this_toPlay = S (Z.to_nat situational) ∧
     this_toPlay !! 0%nat = Some 0) ∧
  keys this = ∅.
Proof.
  intros (Hsize & Hshape & Hnone & Hsome & _ & Hkeys)%constructor_Some.
  split; [done|]. split; [|split; [|split; [|done]]].
  - eapply Forall_impl; [exact Hshape|].
    intros row (gen & -> & Hgen). simpl. by rewrite Hgen.
  - split; [|done]. intros Htp. destruct (decide (situational = 0)) as [|Hne]; [done|].
    destruct (Hsome Hne) as (tp & Htp' & _). by rewrite Htp in Htp'.
  - intros tp Htp. destruct (decide (situational = 0)) as [H0|Hne].
    + by rewrite (Hnone H0) in Htp.
    + destruct (Hsome Hne) as (tp' & Htp' & gen & -> & Hgen).
      rewrite Htp in Htp'. injection Htp' as ->. simpl. by rewrite Hgen.
Qed.

Lemma constructor_shape_witness :
  length (nums sample_table) = Z.to_nat 2 ∧
  Forall (λ row, length row = S (Z.to_nat 2) ∧ row !! 0%nat = Some 0)
    (nums sample_table) ∧
  (toPlay sample_table = None ↔ 2 = 0) ∧
  (∀ this_toPlay, toPlay sample_table = Some this_toPlay →
     length this_toPlay = S (Z.to_nat 2) ∧ this_toPlay !! 0%nat = Some 0) ∧
  keys sample_table = ∅.
Proof.
  apply (constructor_shape 1 sample_rng 2 2 2 sample_table).
  vm_compute. reflexivity.
Defined.

Lemma initNumbers_for_drawn fuel rng iters pos numbers newNumbers row numbers' pos' :
  initNumbers_for fuel rng iters pos numbers newNumbers = Some (row, numbers', pos') →
  ∃ gen, row = newNumbers ++ gen ∧ Forall (λ x, ∃ k : nat, x = rng k) gen.
Proof.
  revert pos numbers newNumbers.
  induction iters as [|iters IH]; intros pos numbers newNumbers; simpl.
  - intros [= <- <- <-]. exists []. by rewrite app_nil_r.
  - destruct (do_while fuel rng pos numbers) as [[num pos1]|] eqn:Hloop; [|done].
    apply do_while_Some in Hloop as (n & _ & _ & -> & _).
    intros (gen & -> & Hgen)%IH. eexists (_ :: gen).
    rewrite <- app_assoc. split; [done|]. constructor; [by eexists|done].
Qed.

Lemma constructor_for_drawn fuel rng iters values pos numbers this_nums nums' numbers' pos' :
  constructor_for fuel rng iters values pos numbers this_nums = Some (nums', numbers', pos') →
  ∃ rows, nums' = this_nums ++ rows ∧
    Forall (λ row, ∃ gen, row = 0 :: gen ∧ Forall (λ x, ∃ k : nat, x = rng k) gen) rows.
Proof.
  revert pos numbers this_nums.
  induction iters as [|iters IH]; intros pos numbers this_nums; simpl.
  - intros [= <- <- <-]. exists []. by rewrite app_nil_r.
  - destruct (initNumbers fuel rng pos numbers values) as [[[row numbers1] pos1]|] eqn:Hrow;
      [|done].
    apply initNumbers_for_drawn in Hrow as (gen & -> & Hgen).
    intros (rows & -> & Hrows)%IH. exists ((0 :: gen) :: rows).
    rewrite <- app_assoc. split; [done|]. constructor; [by exists gen|done].
Qed.

(** X14 — every key is a safe integer.  When every value of the draw
    expression lies in [0, MAX_SAFE_INTEGER), so does every number of the
    rows of [nums] and of [toPlay] in the object the constructor returns. *)
Theorem constructor_keys_in_range fuel rng size values situational this :
  in_key_range rng →
  constructor fuel rng size values situational = Some this →
  Forall (Forall (λ x, 0 ≤ x < MAX_SAFE_INTEGER)) (nums this) ∧
  (∀ this_toPlay, toPlay this = Some this_toPlay →
     Forall (λ x, 0 ≤ x < MAX_SAFE_INTEGER) this_toPlay).
Proof.
  intros Hrange. unfold constructor.
  assert (∀ gen, Forall (λ x, ∃ k : nat, x = rng k) gen →
                 Forall (λ x, 0 ≤ x < MAX_SAFE_INTEGER) (0 :: gen)) as Hrow.
  { intros gen Hgen. constructor; [unfold MAX_SAFE_INTEGER; lia|].
    eapply Forall_impl; [exact Hgen|]. by intros x [k ->]. }
  destruct (constructor_for _ _ _ _ _ _ _) as [[[this_nums numbers] pos]|] eqn:Hfor;
    [|done].
  apply constructor_for_drawn in Hfor as (rows & -> & Hrows). simpl in *.
  assert (Forall (Forall (λ x, 0 ≤ x < MAX_SAFE_INTEGER)) rows) as Hall.
  { eapply Forall_impl; [exact Hrows|]. intros row (gen & -> & Hgen). by apply Hrow. }
  case_decide.
  - by intros [= <-].
  - destruct (initNumbers _ _ _ _ _) as [[[tp numbers1] pos1]|] eqn:Htp; [|done].
    apply initNumbers_for_drawn in Htp as (gen & -> & Hgen).
    intros [= <-]. simpl. split; [done|]. intros ? [= <-]. by apply Hrow.
Qed.

Lemma constructor_keys_in_range_witness :
  Forall (Forall (λ x, 0 ≤ x < MAX_SAFE_INTEGER)) (nums wide_table) ∧
  (∀ this_toPlay, toPlay wide_table = Some this_toPlay →
     Forall (λ x, 0 ≤ x < MAX_SAFE_INTEGER) this_toPlay).
Proof.
  apply (constructor_keys_in_range 1 wide_rng 2 3 0 wide_table).
  - key_range.
  - vm_compute. reflexivity.
Defined.

Lemma initNumbers_for_layout fuel rng iters pos numbers newNumbers :
  (∀ i j : nat, rng i = rng j → i = j) →
  drawn_before rng pos numbers →
  ∃ numbers',
    initNumbers_for (S fuel) rng iters pos numbers newNumbers =
      Some (newNumbers ++ (rng <$> seq pos iters), numbers', (pos + iters)%nat) ∧
    drawn_before rng (pos + iters) numbers'.
Proof.
  intros Hinj. revert pos numbers newNumbers.
  induction iters as [|iters IH]; intros pos numbers newNumbers Hbefore.
  - exists numbers. rewrite app_nil_r, Nat.add_0_r. done.
  - cbn [initNumbers_for]. rewrite do_while_fresh.
    + destruct (IH (S pos) ({[rng pos]} ∪ numbers) (newNumbers ++ [rng pos]))
        as (numbers' & -> & Hbefore').
      * intros x [->%elem_of_singleton|Hx]%elem_of_union.
        -- exists pos. split; [lia|done].
        -- destruct (Hbefore x Hx) as (k & Hk & ->). exists k. split; [lia|done].
      * exists numbers'. rewrite <- app_assoc, Nat.add_succ_r. done.
    + intros (k & Hk & Heq)%Hbefore. apply Hinj in Heq. lia.
Qed.

Lemma rows_shift (rng : RandomSource) (n pos iters : nat) :
  (λ v : nat, row_of rng (pos + v * n) n) <$> seq 0 (S iters) =
    row_of rng pos n :: ((λ v : nat, row_of rng (pos + n + v * n) n) <$> seq 0 iters).
Proof.
  change (seq 0 (S iters)) with (0%nat :: seq 1 iters).
  rewrite fmap_cons, <- fmap_S_seq, <- list_fmap_compose.
  f_equal; [by rewrite Nat.mul_0_l, Nat.add_0_r|].
  apply list_fmap_ext. intros _ v _. simpl. f_equal. lia.
Qed.

Lemma constructor_for_layout fuel rng iters values pos numbers this_nums :
  (∀ i j : nat, rng i = rng j → i = j) →
  drawn_before rng pos numbers →
  ∃ numbers',
    constructor_for (S fuel) rng iters values pos numbers this_nums =
      Some (this_nums ++
              ((λ v : nat, row_of rng (pos + v * Z.to_nat values) (Z.to_nat values))
                 <$> seq 0 iters),
            numbers', (pos + iters * Z.to_nat values)%nat) ∧
    drawn_before rng (pos + iters * Z.to_nat values) numbers'.
Proof.
  intros Hinj. revert pos numbers this_nums.
  induction iters as [|iters IH]; intros pos numbers this_nums Hbefore.
  - exists numbers. rewrite app_nil_r, Nat.add_0_r. done.
  - cbn [constructor_for]. unfold initNumbers.
    destruct (initNumbers_for_layout fuel rng (Z.to_nat values) pos numbers [0]
                Hinj Hbefore) as (numbers1 & -> & Hbefore1).
    destruct (IH _ numbers1 (this_nums ++ [[0] ++ (rng <$> seq pos (Z.to_nat values))])
                Hbefore1) as (numbers' & -> & Hbefore').
    exists numbers'. split.
    + rewrite <- app_assoc, rows_shift. simpl. do 2 f_equal. lia.
    + replace (pos + S iters * Z.to_nat values)%nat
        with (pos + Z.to_nat values + iters * Z.to_nat values)%nat by lia. done.
Qed.

(** X15 — construction from draws that never repeat.  On a source whose
    draws are pairwise different the constructor returns, every key being
    accepted at its first draw: the rows of [nums] are the draws in order,
    [values] of them per row after the leading 0, and [toPlay] holds the
    draws that follow them. *)
Theorem constructor_layout fuel rng size values situational :
  (∀ i j : nat, rng i = rng j → i = j) →
  constructor (S fuel) rng size values situational =
    Some (mkKoHash
            (rows_of rng (Z.to_nat values) (Z.to_nat size))
            (if decide (situational = 0) then None
             else Some (row_of rng (Z.to_nat size * Z.to_nat values)
                          (Z.to_nat situational)))
            ∅).
Proof.
  intros Hinj. unfold constructor.
  destruct (constructor_for_layout fuel rng (Z.to_nat size) values 0 ∅ [] Hinj)
    as (numbers & Hfor & Hbefore); [set_solver|].
  rewrite Hfor. cbv beta iota. case_decide; [reflexivity|]. unfold initNumbers.
  destruct (initNumbers_for_layout fuel rng (Z.to_nat situational) _ numbers [0]
              Hinj Hbefore) as (numbers1 & Htp & _).
  rewrite Htp. reflexivity.
Qed.

Lemma constructor_layout_witness :
  constructor 1 failing_test_rng 2 2 1 =
    Some (mkKoHash (rows_of failing_test_rng (Z.to_nat 2) (Z.to_nat 2))
            (if decide (1 = 0) then None
             else Some (row_of failing_test_rng (Z.to_nat 2 * Z.to_nat 2) (Z.to_nat 1)))
            ∅).
Proof.
  apply (constructor_layout 0 failing_test_rng 2 2 1).
  intros i j. unfold failing_test_rng.
  repeat case_decide; intros Heq; lia.
Defined.

(** ** More on the BigInt variant *)

Lemma randomBigInt_while_spec iters rng pos binary :
  ZobristHash.randomBigInt_while iters rng pos binary =
    (binary ++ (rng <$> seq pos iters), (pos + iters)%nat).
Proof.
  revert pos binary. induction iters as [|iters IH]; intros pos binary; simpl.
  - by rewrite app_nil_r, Nat.add_0_r.
  - rewrite IH, <- app_assoc. simpl. do 2 f_equal. lia.
Qed.

Lemma binary_value_bounds (digits : list bool) acc :
  0 ≤ acc →
  acc * 2 ^ Z.of_nat (length digits)
    ≤ fold_left (λ acc (d : bool), 2 * acc + Z.b2z d) digits acc
    < (acc + 1) * 2 ^ Z.of_nat (length digits).
Proof.
  revert acc. induction digits as [|d digits IH]; intros acc Hacc.
  - simpl. lia.
  - cbn [fold_left length]. rewrite Nat2Z.inj_succ, Z.pow_succ_r by lia.
    specialize (IH (2 * acc + Z.b2z d)).
    assert (0 ≤ Z.b2z d ≤ 1) by (destruct d; simpl; lia).
    pose proof (Z.pow_pos_nonneg 2 (Z.of_nat (length digits))). nia.
Qed.

Lemma randomBigInt_positive bits rng pos :
  1 ≤ bits →
  ∃ n, ZobristHash.randomBigInt bits rng pos = (Normal n, (pos + Z.to_nat bits)%nat) ∧
       0 ≤ n < 2 ^ bits.
Proof.
  unfold ZobristHash.randomBigInt. rewrite randomBigInt_while_spec.
  intros Hbits. destruct (Z.to_nat bits) as [|n] eqn:Hn; [lia|].
  rewrite app_nil_l. cbn [seq]. rewrite fmap_cons.
  cbn [ZobristHash.BigInt_of_binary].
  eexists. split; [reflexivity|].
  pose proof (binary_value_bounds (rng pos :: (rng <$> seq (S pos) n)) 0
                ltac:(lia)) as Hb.
  cbn [length] in Hb.
  rewrite length_fmap, length_seq, <- Hn, Z2Nat.id in Hb by lia.
  rewrite Z.mul_0_l, Z.add_0_l, Z.mul_1_l in Hb. exact Hb.
Qed.

(** X16 — [randomBigInt].  For [bits ≥ 1] it returns a BigInt of the range
    [0, 2^bits) and has made exactly [bits] calls to the random source; for
    [bits ≤ 0] it makes no call and [BigInt('0b')] throws a SyntaxError. *)
Theorem randomBigInt_range bits rng pos :
  (1 ≤ bits →
   ∃ n, ZobristHash.randomBigInt bits rng pos = (Normal n, (pos + Z.to_nat bits)%nat) ∧
        0 ≤ n < 2 ^ bits) ∧
  (bits ≤ 0 → ZobristHash.randomBigInt bits rng pos = (Throw SyntaxError, pos)).
Proof.
  split; [apply randomBigInt_positive|].
  unfold ZobristHash.randomBigInt. rewrite randomBigInt_while_spec.
  intros Hbits. replace (Z.to_nat bits) with 0%nat by lia. simpl.
  by rewrite Nat.add_0_r.
Qed.

Lemma randomBigInt_range_witness :
  ∃ n, ZobristHash.randomBigInt 64 (ZobristHash.bits_of [5]) 0 =
         (Normal n, (0 + Z.to_nat 64)%nat) ∧ 0 ≤ n < 2 ^ 64.
Proof.
  destruct (randomBigInt_range 64 (ZobristHash.bits_of [5]) 0) as [H _].
  apply H. lia.
Defined.

Lemma ZobristHash_do_while_Some fuel rng pos bigints res pos' :
  ZobristHash.do_while fuel rng pos bigints = Some (res, pos') →
  ∃ num, res = Normal num ∧ (num ∉ bigints) ∧ 0 ≤ num < 2 ^ 64.
Proof.
  revert pos. induction fuel as [|fuel IH]; intros pos; [done|].
  cbn [ZobristHash.do_while].
  destruct (randomBigInt_positive 64 rng pos) as (n & -> & Hn); [lia|].
  case_decide; [apply IH|]. intros [= <- <-]. by exists n.
Qed.

Lemma initBigInts_for_Some fuel rng iters pos bigints newNumbers res bigints' pos' :
  ZobristHash.initBigInts_for fuel rng iters pos bigints newNumbers =
    Some (res, bigints', pos') →
  ∃ gen, res = Normal (newNumbers ++ (ZobristHash.Big <$> gen)) ∧
    length gen = iters ∧ NoDup gen ∧ Forall (λ x, 0 ≤ x < 2 ^ 64) gen ∧
    (∀ x, x ∈ gen → x ∉ bigints) ∧ bigints' = list_to_set gen ∪ bigints.
Proof.
  revert pos bigints newNumbers.
  induction iters as [|iters IH]; intros pos bigints newNumbers; simpl.
  - intros [= <- <- <-]. exists []. simpl. rewrite app_nil_r.
    repeat split; [constructor|constructor|set_solver|set_solver].
  - destruct (ZobristHash.do_while fuel rng pos bigints) as [[r pos1]|] eqn:Hloop;
      [|done].
    apply ZobristHash_do_while_Some in Hloop as (num & -> & Hnot & Hnum).
    intros (gen & -> & Hlen & Hnodup & Hrange & Hfresh & ->)%IH.
    exists (num :: gen). rewrite <- app_assoc. simpl.
    repeat split; [by rewrite Hlen| |by constructor|set_solver|set_solver].
    constructor; [|done]. intros Hin. apply Hfresh in Hin. set_solver.
Qed.

(** X17 — what [initBigInts] returns.  It never throws; the row is the
    number 0 followed by [quantity] BigInts of the range [0, 2^64) that are
    pairwise different and were not in the set, and the set has gained
    exactly these BigInts. *)
Theorem initBigInts_returns fuel rng pos bigints quantity res bigints' pos' :
  ZobristHash.initBigInts fuel rng pos bigints quantity = Some (res, bigints', pos') →
  ∃ gen, res = Normal (ZobristHash.Num 0 :: (ZobristHash.Big <$> gen)) ∧
    length gen = Z.to_nat quantity ∧ NoDup gen ∧
    Forall (λ x, 0 ≤ x < 2 ^ 64) gen ∧
    (∀ x, x ∈ gen → x ∉ bigints) ∧ bigints' = list_to_set gen ∪ bigints.
Proof. intros H. by apply initBigInts_for_Some in H. Qed.

Lemma initBigInts_returns_witness :
  ∃ gen,
    Normal [ZobristHash.Num 0; ZobristHash.Big 1; ZobristHash.Big 4294967297] =
      Normal (ZobristHash.Num 0 :: (ZobristHash.Big <$> gen)) ∧
    length gen = Z.to_nat 2 ∧ NoDup gen ∧ Forall (λ x, 0 ≤ x < 2 ^ 64) gen ∧
    (∀ x, x ∈ gen → x ∉ (∅ : gset Z)) ∧
    ({[1; 4294967297]} : gset Z) = list_to_set gen ∪ ∅.
Proof.
  apply (initBigInts_returns 1 (ZobristHash.bits_of [1; 4294967297]) 0 ∅ 2 _ _ 128%nat).
  vm_compute. reflexivity.
Defined.

Lemma ZobristHash_index_row quantity row a :
  ZobristHash.row_shape quantity row →
  (1 ≤ a ≤ quantity → ∃ k, index row a = Some (ZobristHash.Big k)) ∧
  (¬ (1 ≤ a ≤ quantity) →
   index row a = Some (ZobristHash.Num 0) ∨ index row a = None).
Proof.
  intros (gen & -> & Hgen). unfold index. split.
  - intros Ha. rewrite decide_True by lia.
    destruct (Z.to_nat a) as [|n] eqn:Hn; [lia|]. simpl.
    destruct (lookup_lt_is_Some_2 gen n) as [k Hk]; [lia|].
    exists k. by rewrite list_lookup_fmap, Hk.
  - intros Ha. case_decide; [|by right].
    destruct (Z.to_nat a) as [|n] eqn:Hn; [by left|right]. simpl.
    apply lookup_ge_None. rewrite length_fmap. lia.
Qed.

Lemma ZobristHash_reduce_from_throws this values :
  Forall (ZobristHash.row_shape values) (ZobristHash.nums this) →
  ∀ zs acc (i : nat),
    (i + length zs ≤ length (ZobristHash.nums this))%nat →
    (∃ (j : nat) a, zs !! j = Some a ∧ 1 ≤ a ≤ values) →
    reduce_from (ZobristHash.hash_callback this) (ZobristHash.Num acc) i
      (ZobristHash.Num <$> zs) = Throw TypeError.
Proof.
  intros Hshape. rewrite Forall_lookup in Hshape.
  induction zs as [|val zs IH]; intros acc i Hlen (j & a & Hj & Ha); [done|].
  rewrite fmap_cons, reduce_from_cons. unfold ZobristHash.hash_callback at 1.
  simpl in Hlen.
  destruct (lookup_lt_is_Some_2 (ZobristHash.nums this) i) as [row Hrow]; [lia|].
  rewrite Hrow. cbn [ZobristHash.index_value].
  destruct (ZobristHash_index_row values row val (Hshape _ _ Hrow)) as [Hin Hout].
  destruct (decide (1 ≤ val ≤ values)) as [Hval|Hval].
  - destruct (Hin Hval) as [k ->]. done.
  - assert (∃ (j' : nat) a', zs !! j' = Some a' ∧ 1 ≤ a' ≤ values) as Hrest.
    { destruct j as [|j]; [|by exists j, a].
      simpl in Hj. injection Hj as ->. done. }
    destruct (Hout Hval) as [-> | ->]; simpl; apply IH; (lia || done).
Qed.

Lemma ZobristHash_constructor_for_Some fuel rng iters values pos bigints this_nums
    res bigints' pos' :
  ZobristHash.constructor_for fuel rng iters values pos bigints this_nums =
    Some (res, bigints', pos') →
  ∃ rows, res = Normal (this_nums ++ rows) ∧ length rows = iters ∧
    Forall (ZobristHash.row_shape values) rows.
Proof.
  revert pos bigints this_nums.
  induction iters as [|iters IH]; intros pos bigints this_nums; simpl.
  - intros [= <- <- <-]. exists []. by rewrite app_nil_r.
  - destruct (ZobristHash.initBigInts fuel rng pos bigints values)
      as [[[r bigints1] pos1]|] eqn:Hrow; [|done].
    apply initBigInts_for_Some in Hrow as (gen & -> & Hlen & _).
    intros (rows & -> & Hrows & Hshape)%IH.
    exists ((ZobristHash.Num 0 :: (ZobristHash.Big <$> gen)) :: rows).
    rewrite <- app_assoc. simpl. repeat split; [by rewrite Hrows|].
    constructor; [by exists gen|done].
Qed.

Lemma ZobristHash_constructor_Some fuel rng size values situational res :
  ZobristHash.constructor fuel rng size values situational = Some res →
  ∃ this, res = Normal this ∧
    length (ZobristHash.nums this) = Z.to_nat size ∧
    Forall (ZobristHash.row_shape values) (ZobristHash.nums this) ∧
    (situational = 0 → ZobristHash.toPlay this = None) ∧
    (situational ≠ 0 →
     ∃ this_toPlay, ZobristHash.toPlay this = Some this_toPlay ∧
                    ZobristHash.row_shape situational this_toPlay) ∧
    ZobristHash.keys this = ∅.
Proof.
  unfold ZobristHash.constructor.
  destruct (ZobristHash.constructor_for _ _ _ _ _ _ _) as [[[r bigints] pos]|] eqn:Hfor;
    [|done].
  apply ZobristHash_constructor_for_Some in Hfor as (rows & -> & Hlen & Hshape).
  simpl. case_decide as Hsit.
  - intros [= <-]. eexists. split; [done|]. simpl. repeat split; done.
  - destruct (ZobristHash.initBigInts _ _ _ _ _) as [[[r bigints1] pos1]|] eqn:Hrow;
      [|done].
    apply initBigInts_for_Some in Hrow as (gen & -> & Hgen & _).
    intros [= <-]. eexists. split; [done|]. simpl. repeat split; try done.
    intros _. eexists. split; [done|]. by exists gen.
Qed.

(** X18 — the BigInt constructor.  Whenever [new ZobristHash(size, values,
    situational)] completes it has not thrown: it returns an object with
    one row per vertex, each the number 0 followed by [values] BigInts,
    with [toPlay] of the same form when [situational] is not 0 and absent
    when it is 0, and with an empty registry. *)
Theorem ZobristHash_constructor_shape fuel rng size values situational res :
  ZobristHash.constructor fuel rng size values situational = Some res →
  ∃ this, res = Normal this ∧
    length (ZobristHash.nums this) = Z.to_nat size ∧
    Forall (ZobristHash.row_shape values) (ZobristHash.nums this) ∧
    (ZobristHash.toPlay this = None ↔ situational = 0) ∧
    (∀ this_toPlay, ZobristHash.toPlay this = Some this_toPlay →
                    ZobristHash.row_shape situational this_toPlay) ∧
    ZobristHash.keys this = ∅.
Proof.
  intros (this & -> & Hsize & Hshape & Hnone & Hsome & Hkeys)%ZobristHash_constructor_Some.
  exists this. split; [done|]. split; [done|]. split; [done|].
  split; [|split; [|done]].
  - split; [|done]. intros Htp.
    destruct (decide (situational = 0)) as [|Hne]; [done|].
    destruct (Hsome Hne) as (tp & Htp' & _). by rewrite Htp in Htp'.
  - intros tp Htp. destruct (decide (situational = 0)) as [H0|Hne].
    + by rewrite (Hnone H0) in Htp.
    + destruct (Hsome Hne) as (tp' & Htp' & Hshape').
      rewrite Htp in Htp'. by injection Htp' as ->.
Qed.

Lemma ZobristHash_constructor_shape_witness :
  ∃ this,
    Normal (ZobristHash.mkZobristHash
              [[ZobristHash.Num 0; ZobristHash.Big 1]] None ∅) = Normal this ∧
    length (ZobristHash.nums this) = Z.to_nat 1 ∧
    Forall (ZobristHash.row_shape 1) (ZobristHash.nums this) ∧
    (ZobristHash.toPlay this = None ↔ 0 = 0) ∧
    (∀ this_toPlay, ZobristHash.toPlay this = Some this_toPlay →
                    ZobristHash.row_shape 0 this_toPlay) ∧
    ZobristHash.keys this = ∅.
Proof.
  apply (ZobristHash_constructor_shape 1 (ZobristHash.bits_of [1]) 1 1 0).
  vm_compute. reflexivity.
Defined.

(** X19 — a state of numbers with a stone.  On an object that the BigInt
    constructor returned, for a state of numbers that fits the table and
    holds a value of [1 .. values] at some vertex [v ≥ 1], [hash] throws a
    TypeError ([^] between the number accumulated so far and the BigInt
    key), and so does [add], which registers nothing. *)
Theorem ZobristHash_number_state_throws fuel rng size values situational this
    zs to_play (v : nat) a :
  ZobristHash.constructor fuel rng size values situational = Some (Normal this) →
  (length zs ≤ Z.to_nat size)%nat →
  (1 ≤ v)%nat →
  zs !! v = Some a →
  1 ≤ a ≤ values →
  ZobristHash.hash this (ZobristHash.Num <$> zs) to_play = Throw TypeError ∧
  ZobristHash.add this (ZobristHash.Num <$> zs) to_play = (Throw TypeError, this).
Proof.
  intros (this' & [= <-] & Hsize & Hshape & _)%ZobristHash_constructor_Some
    Hlen Hv Hzs Ha.
  assert (ZobristHash.hash this (ZobristHash.Num <$> zs) to_play = Throw TypeError)
    as Hhash.
  { destruct zs as [|first zs]; [done|]. destruct v as [|v]; [lia|].
    unfold ZobristHash.hash. rewrite fmap_cons. unfold reduce.
    rewrite (ZobristHash_reduce_from_throws this values Hshape); [done| |].
    - simpl in Hlen. lia.
    - by exists v, a. }
  split; [done|]. unfold ZobristHash.add. by rewrite Hhash.
Qed.

Lemma ZobristHash_number_state_throws_witness :
  ZobristHash.hash
    (ZobristHash.mkZobristHash
       [[ZobristHash.Num 0; ZobristHash.Big 1];
        [ZobristHash.Num 0; ZobristHash.Big 4294967297]] None ∅)
    (ZobristHash.Num <$> [0; 1]) 0 = Throw TypeError ∧
  ZobristHash.add
    (ZobristHash.mkZobristHash
       [[ZobristHash.Num 0; ZobristHash.Big 1];
        [ZobristHash.Num 0; ZobristHash.Big 4294967297]] None ∅)
    (ZobristHash.Num <$> [0; 1]) 0 =
    (Throw TypeError,
     ZobristHash.mkZobristHash
       [[ZobristHash.Num 0; ZobristHash.Big 1];
        [ZobristHash.Num 0; ZobristHash.Big 4294967297]] None ∅).
Proof.
  apply (ZobristHash_number_state_throws 1 (ZobristHash.bits_of [1; 4294967297])
           2 1 0 _ [0; 1] 0 1 1);
    [vm_compute; reflexivity|simpl; lia|lia|reflexivity|lia].
Defined.

(** ** Single stones *)

Lemma hash_zero_state_constructed_witness :
  hash sample_table (replicate (S 1) 0) 0 = Normal 0.
Proof.
  apply (hash_zero_state_constructed 1 sample_rng 2 2 2 sample_table 1);
    [vm_compute; reflexivity|simpl; lia].
Defined.

(** X21 — a lone stone.  On an object that the constructor returned, the
    board of [n] vertices that is empty except for the value [a] at a vertex
    [v ≥ 1] hashes, for player 0, to the low 32 bits of the key of [a] at
    [v], read as a signed integer. *)
Theorem hash_single_stone fuel rng size values situational this (n v : nat) a :
  constructor fuel rng size values situational = Some this →
  (1 ≤ v < n)%nat → (n ≤ Z.to_nat size)%nat →
  hash this (<[v:=a]> (replicate n 0)) 0 = Normal (ToInt32 (key this v a)).
Proof.
  intros Hnew Hv Hn.
  pose proof Hnew as (Hsize & Hshape & Hnone & Hsome & _)%constructor_Some.
  destruct n as [|n]; [lia|].
  assert (hash this (replicate (S n) 0) 0 = Normal 0) as Hzero.
  { apply hash_zero_state; [lia| |].
    - eapply Forall_impl; [exact Hshape|]. by intros row (gen & -> & _).
    - intros tp Htp. destruct (decide (situational = 0)) as [H0|H0].
      + by rewrite (Hnone H0) in Htp.
      + destruct (Hsome H0) as (tp' & Htp' & gen & -> & _). by simplify_eq. }
  rewrite (hash_insert this v (replicate (S n) 0) 0 0 a 0); [|lia| | |done].
  - destruct (lookup_lt_is_Some_2 (nums this) v) as [row Hrow]; [lia|].
    rewrite Forall_lookup in Hshape.
    destruct (key_row_shape this v values row 0 Hrow (Hshape _ _ Hrow)) as [-> _].
    by rewrite !Z.lxor_0_l.
  - rewrite length_replicate. lia.
  - apply lookup_replicate. split; [done|lia].
Qed.

Lemma hash_single_stone_witness :
  hash wide_table (<[1%nat:=3]> (replicate 2 0)) 0 =
    Normal (ToInt32 (key wide_table 1 3)).
Proof.
  apply (hash_single_stone 1 wide_rng 2 3 0 wide_table 2 1 3);
    [vm_compute; reflexivity|lia|lia].
Defined.
